(** * nann: a feedforward-network evaluation engine, embedded in Rocq

    The development follows the two Go source files of the package:
    [fixed8.go] (the [Fixed8] codec) and the network file (dense layers,
    models, activation functions, softmax).

    - [float32] and [float64] values are IEEE-754 binary floating-point
      numbers, taken from the standard library's [SpecFloat] at precision
      24/128 and 53/1024 (round to nearest, ties to even).
    - Slices are headers (pointer, length, capacity) over one flat memory
      of [float32] cells, so that two headers may share cells exactly as
      two Go slices share a backing array.
    - A Go [panic] is a value of the result type, never an exception. *)

From Stdlib Require Import ZArith QArith Qabs Lia Ascii String List.
From Stdlib Require Import DecimalString DecimalPos DecimalZ.
From Stdlib Require Import SpecFloat.
From stdpp Require Import base option list gmap.

Local Open Scope Z_scope.

(* ------------------------------------------------------------------ *)
(** * IEEE-754 arithmetic of the two float types *)

Module F32.
Definition prec : Z := 24.
Definition emax : Z := 128.

Definition t := spec_float.

Definition zero : t := S754_zero false.
Definition of_Z (z : Z) : t := binary_normalize prec emax z 0 false.
Definition one : t := of_Z 1.

Definition add : t -> t -> t := SFadd prec emax.
Definition sub : t -> t -> t := SFsub prec emax.
Definition mul : t -> t -> t := SFmul prec emax.
Definition div : t -> t -> t := SFdiv prec emax.
Definition neg : t -> t := SFopp.
Definition ltb : t -> t -> bool := SFltb.
Definition leb : t -> t -> bool := SFleb.
Definition valid : t -> bool := valid_binary prec emax.
End F32.

Module F64.
Definition prec : Z := 53.
Definition emax : Z := 1024.

Definition t := spec_float.

Definition sqrt : t -> t := SFsqrt prec emax.
Definition valid : t -> bool := valid_binary prec emax.
End F64.

Abbreviation float32 := F32.t.
Abbreviation float64 := F64.t.

(** [float64(x)] for a [float32] [x]: exact, the mantissa is re-aligned to
    the wider format. *)
Definition float64_of_float32 (x : float32) : float64 :=
  match x with
  | S754_finite s m e =>
      binary_normalize F64.prec F64.emax (cond_Zopp s (Zpos m)) e s
  | _ => x
  end.

(** [float32(x)] for a [float64] [x]: rounds to nearest even. *)
Definition float32_of_float64 (x : float64) : float32 :=
  match x with
  | S754_finite s m e =>
      binary_normalize F32.prec F32.emax (cond_Zopp s (Zpos m)) e s
  | _ => x
  end.

(** The rational value of a finite float; [None] for infinities and NaN. *)
Definition SF2Q (x : spec_float) : option Q :=
  match x with
  | S754_zero _ => Some 0%Q
  | S754_finite s m e =>
      Some (inject_Z (cond_Zopp s (Zpos m)) * Qpower 2 e)%Q
  | _ => None
  end.

(* ------------------------------------------------------------------ *)
(** * fixed8.go *)

(** [type Fixed8 int8]: the stored integer, in [-128, 127]. *)
Definition Fixed8 := Z.

Definition is_int8 (x : Z) : Prop := -128 <= x <= 127.

(** [func (x Fixed8) Float32() float32 { return float32(x) / 8 }] *)
Definition Fixed8_Float32 (x : Fixed8) : float32 :=
  F32.div (F32.of_Z x) (F32.of_Z 8).

(* ------------------------------------------------------------------ *)
(** * Memory, slices and panics *)

(** A [[]float32] header.  [cap] counts cells from [ptr], as in Go. *)
Record Slice := mkSlice { ptr : nat; len : nat; cap : nat }.

(** The flat memory of [float32] cells; cells from [brk] on are free. *)
Record Heap := mkHeap { cells : gmap nat float32; brk : nat }.

Definition load (h : Heap) (a : nat) : float32 :=
  default F32.zero (cells h !! a).

Definition store (a : nat) (v : float32) (h : Heap) : Heap :=
  mkHeap (<[a := v]> (cells h)) (brk h).

(** The values a slice shows: cells [ptr .. ptr + len). *)
Definition addrs (s : Slice) : list nat := seq (ptr s) (len s).
Definition read (h : Heap) (s : Slice) : list float32 := map (load h) (addrs s).

Inductive Panic :=
| PanicString (msg : string)              (* panic("...") *)
| IndexOutOfRange (i n : nat)             (* index out of range [i] with length n *)
| SliceBoundsOutOfRange (n c : nat).      (* slice bounds out of range [:n] with capacity c *)

Inductive Result (A : Type) :=
| Ok (a : A)
| Panicked (p : Panic).
Arguments Ok {A} a.
Arguments Panicked {A} p.

(** Computations that read and write the memory and may panic. *)
Definition M (A : Type) : Type := Heap -> Result (A * Heap).

Definition ret {A} (a : A) : M A := fun h => Ok (a, h).

Definition bind {A B} (c : M A) (k : A -> M B) : M B :=
  fun h => match c h with
           | Ok (a, h') => k a h'
           | Panicked p => Panicked p
           end.

Definition panic {A} (p : Panic) : M A := fun _ => Panicked p.

Definition lift {A} (r : Result A) : M A :=
  fun h => match r with Ok a => Ok (a, h) | Panicked p => Panicked p end.

Declare Scope go_scope.
Delimit Scope go_scope with go.
Notation "x <- c ;; k" := (bind c (fun x => k))
  (at level 100, c at next level, right associativity) : go_scope.
Notation "c ;; k" := (bind c (fun _ => k))
  (at level 100, right associativity) : go_scope.
Local Open Scope go_scope.

(** [for _, x := range xs { body }] over an immutable sequence. *)
Fixpoint forM_ {A} (xs : list A) (body : A -> M unit) : M unit :=
  match xs with
  | [] => ret tt
  | x :: xs' => body x ;; forM_ xs' body
  end.

(** The same loop threading a value (here: the random source). *)
Fixpoint foldM {A S} (xs : list A) (body : A -> S -> M S) (s : S) : M S :=
  match xs with
  | [] => ret s
  | x :: xs' => s' <- body x s ;; foldM xs' body s'
  end.

(** [for i := range s]: the length is read once, [i] runs over [0 .. n). *)
Definition range (n : nat) (body : nat -> M unit) : M unit :=
  forM_ (seq 0 n) body.

(** [xs[i]] on an immutable sequence. *)
Definition index {A} (xs : list A) (i : nat) : Result A :=
  match xs !! i with
  | Some x => Ok x
  | None => Panicked (IndexOutOfRange i (length xs))
  end.

(** [s[i]] as a value. *)
Definition slice_get (s : Slice) (i : nat) : M float32 :=
  fun h => if (i <? len s)%nat then Ok (load h (ptr s + i)%nat, h)
           else Panicked (IndexOutOfRange i (len s)).

(** [s[i] = v]. *)
Definition slice_set (s : Slice) (i : nat) (v : float32) : M unit :=
  fun h => if (i <? len s)%nat then Ok (tt, store (ptr s + i)%nat v h)
           else Panicked (IndexOutOfRange i (len s)).

(** [s[:n]]. *)
Definition reslice (s : Slice) (n : nat) : Result Slice :=
  if (n <=? cap s)%nat then Ok (mkSlice (ptr s) n (cap s))
  else Panicked (SliceBoundsOutOfRange n (cap s)).

(** [strconv.FormatInt(int64(n), 10)] for a length [n]. *)
Definition FormatInt (n : nat) : string :=
  NilZero.string_of_int (Z.to_int (Z.of_nat n)).

(** [make([]float32, n)]: [n] fresh zeroed cells. *)
Definition zero_cells (a n : nat) (h : Heap) : Heap :=
  fold_right (fun k h' => store k F32.zero h') h (seq a n).

Definition make (n : nat) : M Slice :=
  fun h => Ok (mkSlice (brk h) n n,
               zero_cells (brk h) n (mkHeap (cells h) (brk h + n))).

(** [copy(dst, src)] of [n] cells, every source cell read before any write. *)
Definition copy_cells (src dst n : nat) (h : Heap) : Heap :=
  fold_right (fun k h' => store (dst + k)%nat (load h (src + k)%nat) h') h (seq 0 n).

(* ------------------------------------------------------------------ *)
(** * The network file *)

Section Nann.

(** The spare capacity the runtime's [growslice] adds beyond the length it
    is asked for, from the old capacity and that length. *)
Variable growslack : nat -> nat -> nat.

(** [*rand.Rand], a deterministic source: a draw returns the value and the
    state after the draw. *)
Variable Rand : Type.
Variable Rand_Float32 : Rand -> float32 * Rand.
Variable Rand_NormFloat64 : Rand -> float64 * Rand.

(** [math.Exp]. *)
Variable math_Exp : float64 -> float64.

(** [runtime.growslice]: a fresh zeroed array able to hold [newLen] cells,
    the [len s] old cells copied to its front. *)
Definition growslice (s : Slice) (newLen : nat) : M Slice :=
  fun h =>
    let c := (newLen + growslack (cap s) newLen)%nat in
    match make c h with
    | Ok (s', h') => Ok (mkSlice (ptr s') newLen c,
                         copy_cells (ptr s) (ptr s') (len s) h')
    | Panicked p => Panicked p
    end.

(** [append(s, v)]. *)
Definition append (s : Slice) (v : float32) : M Slice :=
  if (len s <? cap s)%nat then
    let s' := mkSlice (ptr s) (S (len s)) (cap s) in
    slice_set s' (len s) v ;; ret s'
  else
    s' <- growslice s (S (len s)) ;;
    slice_set s' (len s) v ;; ret s'.

(** [slices.Grow(s, n)]:
    [if n -= cap(s) - len(s); n > 0 { s = append(s[:cap(s)], make([]E, n)...)[:len(s)] }]. *)
Definition slices_Grow (s : Slice) (n : nat) : M Slice :=
  if (cap s - len s <? n)%nat then
    full <- lift (reslice s (cap s)) ;;
    s' <- growslice full (cap s + (n - (cap s - len s)))%nat ;;
    lift (reslice s' (len s))
  else ret s.

Definition exp (x : float32) : float32 :=
  float32_of_float64 (math_Exp (float64_of_float32 x)).

Definition sqrt (x : float32) : float32 :=
  float32_of_float64 (F64.sqrt (float64_of_float32 x)).

Definition xavier (in_ out : nat) : float32 :=
  sqrt (F32.div (F32.of_Z 6)
          (F32.add (F32.of_Z (Z.of_nat in_)) (F32.of_Z (Z.of_nat out)))).

(** ** DenseLayer *)

(** [type DenseLayer [][]float32]: the rows, each a slice of the memory.
    The outer slice is never written after construction and is kept as a
    value. *)
Abbreviation DenseLayer := (list Slice).

Fixpoint NewDenseLayer_rows (fanIn fanOut : nat) : M DenseLayer :=
  match fanIn with
  | O => ret []
  | S k => row <- make fanOut ;;
           rest <- NewDenseLayer_rows k fanOut ;;
           ret (row :: rest)
  end.

Definition NewDenseLayer (fanIn fanOut : nat) : M DenseLayer :=
  NewDenseLayer_rows fanIn fanOut.

Definition DenseLayer_Shape (l : DenseLayer) : Result (nat * nat) :=
  match index l 0 with
  | Ok row0 => Ok (length l, len row0)
  | Panicked p => Panicked p
  end.

(** One weight: [(2*r.Float32() - 1) * xavier(fanIn, fanOut)]. *)
Definition draw_weight (fanIn fanOut : nat) (r : Rand) : float32 * Rand :=
  let (u, r') := Rand_Float32 r in
  (F32.mul (F32.sub (F32.mul (F32.of_Z 2) u) (F32.of_Z 1)) (xavier fanIn fanOut), r').

Definition DenseLayer_InitWeights (l : DenseLayer) (r : Rand) : M Rand :=
  let fanIn := length l in
  foldM l (fun row r =>
    let fanOut := len row in
    foldM (seq 0 (len row)) (fun i r =>
      let (w, r') := draw_weight fanIn fanOut r in
      slice_set row i w ;; ret r') r) r.

Definition shape_mismatch_in (n : nat) : Panic :=
  PanicString ("shape mismatch (" ++ FormatInt n ++ ", _)")%string.
Definition shape_mismatch_out (n : nat) : Panic :=
  PanicString ("shape mismatch (_, " ++ FormatInt n ++ ")")%string.

Definition DenseLayer_Forward (l : DenseLayer) (in_ out : Slice) : M Slice :=
  if negb (len in_ =? length l)%nat then panic (shape_mismatch_in (len in_))
  else
    row0 <- lift (index l 0) ;;
    if negb (len out =? len row0)%nat then panic (shape_mismatch_out (len out))
    else
      range (len in_) (fun i =>
        x <- slice_get in_ i ;;
        range (len out) (fun j =>
          row <- lift (index l i) ;;
          w <- slice_get row j ;;
          o <- slice_get out j ;;
          slice_set out j (F32.add o (F32.mul w x)))) ;;
      ret out.

(** ** The Layer interface; DenseLayer is its one implementation *)

Inductive Layer := Dense (l : DenseLayer).

Definition Layer_Shape (l : Layer) : Result (nat * nat) :=
  match l with Dense d => DenseLayer_Shape d end.
Definition Layer_InitWeights (l : Layer) (r : Rand) : M Rand :=
  match l with Dense d => DenseLayer_InitWeights d r end.
Definition Layer_Forward (l : Layer) (in_ out : Slice) : M Slice :=
  match l with Dense d => DenseLayer_Forward d in_ out end.

(** ** Activation functions *)

Record activFn := mkActivFn {
  apply : float32 -> float32;
  deriv : float32 -> float32 }.

Definition Apply (a : activFn) (x : float32) : float32 := apply a x.
Definition Deriv (a : activFn) (x : float32) : float32 := deriv a x.

Definition Ident : activFn :=
  mkActivFn (fun x => x) (fun _ => F32.of_Z 1).

Definition LRelu : activFn :=
  mkActivFn
    (fun x => if F32.ltb x F32.zero then F32.div x (F32.of_Z 64) else x)
    (fun x => if F32.ltb x F32.zero then F32.div (F32.of_Z 1) (F32.of_Z 64)
              else F32.of_Z 1).

Definition Sigmoid : activFn :=
  mkActivFn
    (fun x => F32.div (F32.of_Z 1) (F32.add (F32.of_Z 1) (exp (F32.neg x))))
    (fun x => F32.mul x (F32.sub (F32.of_Z 1) x)).

(** ** Model *)

Record Model := mkModel {
  Layers : list Layer;
  Biases : Slice;
  ActivFn : list activFn }.

Definition Model_AddLayer (m : Model) (l : Layer) (a : activFn) : M Model :=
  bs <- append (Biases m) F32.zero ;;
  ret (mkModel (Layers m ++ [l]) bs (ActivFn m ++ [a])).

Definition Model_Shape (m : Model) : Result (nat * nat) :=
  match index (Layers m) 0 with
  | Panicked p => Panicked p
  | Ok first =>
      match Layer_Shape first with
      | Panicked p => Panicked p
      | Ok (s0, _) =>
          match index (Layers m) (length (Layers m) - 1) with
          | Panicked p => Panicked p
          | Ok last =>
              match Layer_Shape last with
              | Panicked p => Panicked p
              | Ok (_, s1) => Ok (s0, s1)
              end
          end
      end
  end.

(** One bias: [float32(r.NormFloat64()) / 64]. *)
Definition draw_bias (r : Rand) : float32 * Rand :=
  let (x, r') := Rand_NormFloat64 r in
  (F32.div (float32_of_float64 x) (F32.of_Z 64), r').

Definition Model_InitWeights (m : Model) (r : Rand) : M Rand :=
  r1 <- foldM (seq 0 (len (Biases m))) (fun i r =>
          let (b, r') := draw_bias r in
          slice_set (Biases m) i b ;; ret r') r ;;
  foldM (Layers m) (fun l r => Layer_InitWeights l r) r1.

(** [if n := fanOut; n < len(out) { out = out[:n] } else if n > len(out)
    { out = slices.Grow(out, n-len(out))[:n] }] *)
Definition resize_out (out : Slice) (n : nat) : M Slice :=
  if (n <? len out)%nat then lift (reslice out n)
  else if (len out <? n)%nat then
    (s <- slices_Grow out (n - len out) ;; lift (reslice s n))
  else ret out.

(** One turn of the loop of [Model.Forward], up to the test that ends it:
    the output buffer is cut or grown to the layer's fanOut, the layer
    writes into it, bias and activation are applied in place. *)
Definition Forward_stage (m : Model) (l : Layer) (i : nat)
    (in_ out : Slice) : M Slice :=
  sh <- lift (Layer_Shape l) ;;
  let fanOut := snd sh in
  out <- resize_out out fanOut ;;
  out <- Layer_Forward l in_ out ;;
  b <- slice_get (Biases m) i ;;
  a <- lift (index (ActivFn m) i) ;;
  range (len out) (fun k =>
    x <- slice_get out k ;;
    slice_set out k (Apply a (F32.add x b))) ;;
  ret out.

(** The loop of [Model.Forward].  [todo] is [m.Layers[i:]], so its head is
    [m.Layers[i]]; an empty [todo] is the index expression failing.  After
    a turn that is not the last the two buffers change roles. *)
Fixpoint Forward_loop (m : Model) (todo : list Layer) (i : nat)
    (in_ out : Slice) : M Slice :=
  match todo with
  | [] => panic (IndexOutOfRange i (length (Layers m)))
  | l :: todo' =>
      out <- Forward_stage m l i in_ out ;;
      if (S i <? length (Layers m))%nat
      then Forward_loop m todo' (S i) out in_
      else ret out
  end.

Definition Model_Forward (m : Model) (in_ out : Slice) : M Slice :=
  Forward_loop m (Layers m) 0 in_ out.

(** ** Softmax *)

Definition softmaxd (xs : Slice) : M float32 :=
  foldM (seq 0 (len xs)) (fun i sp =>
    x <- slice_get xs i ;; ret (F32.add sp (exp x))) F32.zero.

Definition Softmax (xs : Slice) : M unit :=
  sp <- softmaxd xs ;;
  range (len xs) (fun i =>
    x <- slice_get xs i ;; slice_set xs i (F32.div (exp x) sp)).

(* ------------------------------------------------------------------ *)
(** * Vocabulary of the statements *)

(** A memory holding the given values from address 0. *)
Definition heap_of (vs : list float32) : Heap :=
  mkHeap (list_to_map (zip (seq 0 (length vs)) vs)) (length vs).

(** The [float32] of a small integer constant. *)
Definition fl (z : Z) : float32 := F32.of_Z z.

(** What a run leaves in the slice it returns. *)
Definition outcome (r : Result (Slice * Heap)) : Result (list float32) :=
  match r with
  | Ok (s, h) => Ok (read h s)
  | Panicked p => Panicked p
  end.

Definition is_panic {A} (r : Result A) : Prop :=
  match r with Panicked _ => True | Ok _ => False end.

(** Decoding is checked on the whole of [int8] by evaluation. *)
Definition int8_values : list Z := map (fun n => Z.of_nat n - 128) (seq 0 256).

Definition Fixed8_decodes (s : Z) : bool :=
  match SF2Q (Fixed8_Float32 s) with
  | Some q => Qeq_bool q (s # 8) && Qle_bool (-16) q && Qle_bool q (127 # 8)
              && F32.valid (Fixed8_Float32 s)
  | None => false
  end.


(** A rectangular layer whose rows lie one after the other from [p]. *)
Definition dense_at (p fanIn fanOut : nat) : DenseLayer :=
  map (fun k => mkSlice (p + k * fanOut) fanOut fanOut) (seq 0 fanIn).

(** [s[i]] in memory [h], for [i] inside the slice. *)
Definition at_ (h : Heap) (s : Slice) (i : nat) : float32 :=
  load h (ptr s + i)%nat.

(** [l[i][j]] in memory [h]. *)
Definition weight (h : Heap) (l : DenseLayer) (i j : nat) : float32 :=
  match l !! i with
  | Some row => at_ h row j
  | None => F32.zero
  end.

(** The visible cells of two slices do not overlap. *)
Definition separate (s t : Slice) : Prop :=
  (ptr s + len s <= ptr t)%nat \/ (ptr t + len t <= ptr s)%nat.

(** The address lies outside the visible cells of the slice. *)
Definition outside (s : Slice) (a : nat) : Prop :=
  (a < ptr s)%nat \/ (ptr s + len s <= a)%nat.

(** [acc + input[0]*weight[0][j] + ... + input[n-1]*weight[n-1][j]], summed
    in [float32] from the left, as the loop nest adds the terms. *)
Definition accumulate (h : Heap) (l : DenseLayer) (in_ : Slice)
    (j n : nat) (acc : float32) : float32 :=
  fold_left (fun acc i => F32.add acc (F32.mul (weight h l i j) (at_ h in_ i)))
    (seq 0 n) acc.

(** Every row has [fanOut] cells. *)
Definition rectangular (l : DenseLayer) (fanOut : nat) : Prop :=
  Forall (fun row => len row = fanOut) l.

(** A slice header the runtime can produce. *)
Definition Slice_wf (s : Slice) : Prop := (len s <= cap s)%nat.

(** ** The forward pass as the specification words it

    Stage [i] maps its input vector to the vector whose element [j] is
    [ActivFn[i].Apply((sum over k of input[k] * weights_i[k][j]) + Biases[i])];
    the stages are chained and the last vector is the result.  The sum is
    taken in [float32], from zero, in index order. *)
Definition stage_spec (h : Heap) (l : DenseLayer) (b : float32) (a : activFn)
    (xs : list float32) : list float32 :=
  match l !! 0%nat with
  | None => []
  | Some row0 =>
      map (fun j =>
             Apply a (F32.add
               (fold_left (fun acc k =>
                    F32.add acc (F32.mul (weight h l k j) (nth k xs F32.zero)))
                  (seq 0 (length xs)) F32.zero) b))
          (seq 0 (len row0))
  end.

Fixpoint Forward_spec (h : Heap) (ls : list Layer) (bs : list float32)
    (fs : list activFn) (xs : list float32) : list float32 :=
  match ls, bs, fs with
  | Dense l :: ls', b :: bs', a :: fs' =>
      Forward_spec h ls' bs' fs' (stage_spec h l b a xs)
  | _, _, _ => xs
  end.

(** Two 1x1 layers of weight 1, biases 0, identity activations; input [5]
    and a zeroed output buffer of one cell.  Cells: the two weights, the two
    biases, the input, the output. *)
Definition two_layer_model : Model :=
  mkModel [Dense [mkSlice 0 1 1]; Dense [mkSlice 1 1 1]] (mkSlice 2 2 2)
          [Ident; Ident].
Definition two_layer_heap : Heap :=
  heap_of [fl 1; fl 1; fl 0; fl 0; fl 5; fl 0].

(** The identity layer of shape (2,2), with an input [5, 7] and an output
    buffer holding [1, 1]: cells 0..3 the weights, 4..5 the input, 6..7 the
    output. *)
Definition identity_layer : list Slice := [mkSlice 0 2 2; mkSlice 2 2 2].
Definition identity_heap : Heap :=
  heap_of [fl 1; fl 0; fl 0; fl 1; fl 5; fl 7; fl 1; fl 1].


(** A one-layer model of shape (2,2) to which a layer of shape (3,1) is
    added: cells 0..3 the first weights, 4 the bias, 5..6 the input, 7..8 the
    output buffer, 9..11 the weights of the added layer. *)
Definition one_layer_model : Model :=
  mkModel [Dense identity_layer] (mkSlice 4 1 1) [Ident].
Definition added_layer : list Slice :=
  [mkSlice 9 1 1; mkSlice 10 1 1; mkSlice 11 1 1].
Definition one_layer_heap : Heap :=
  heap_of [fl 1; fl 0; fl 0; fl 1; fl 0; fl 5; fl 7; fl 0; fl 0; fl 1; fl 1; fl 1].
Definition no_slack : nat -> nat -> nat := fun _ _ => O.
Definition grown_model : Model :=
  mkModel [Dense identity_layer; Dense added_layer] (mkSlice 12 2 2) [Ident; Ident].


(** ** The draws of the loops of InitWeights, gathered *)

(** The values drawn for the members of [xs], one member after the other,
    and the state of the source afterwards. *)
Fixpoint draws_fold {A} (D : A -> Rand -> list float32 * Rand) (xs : list A)
    (r : Rand) : list float32 * Rand :=
  match xs with
  | [] => ([], r)
  | x :: xs' =>
      let (v, r1) := D x r in
      let (w, r2) := draws_fold D xs' r1 in
      (v ++ w, r2)
  end.

(** [n] successive draws of [g]. *)
Definition slice_draws (g : Rand -> float32 * Rand) (n : nat) (r : Rand)
    : list float32 * Rand :=
  draws_fold (fun _ r => let (v, r') := g r in ([v], r')) (seq 0 n) r.

(** What the loop nest of [DenseLayer.InitWeights] draws, given the
    lengths of the rows. *)
Definition layer_draws (lens : list nat) (r : Rand) : list float32 * Rand :=
  draws_fold (fun n => slice_draws (draw_weight (length lens) n) n) lens r.

(** What the two loops of [Model.InitWeights] draw, with the loop bodies
    [draw_bias] and [draw_weight] of the code. *)
Definition InitWeights_draws (nb : nat) (shapes : list (list nat)) (r : Rand)
    : list float32 * Rand :=
  let (bs, r1) := slice_draws draw_bias nb r in
  let (ws, r2) := draws_fold layer_draws shapes r1 in
  (bs ++ ws, r2).

(** The structure of a model: how many biases, and the row lengths of every
    layer. *)
Definition Layer_lens (l : Layer) : list nat :=
  match l with Dense d => map len d end.
Definition Model_skeleton (m : Model) : nat * list (list nat) :=
  (len (Biases m), map Layer_lens (Layers m)).

(** The cells of a model: the biases, then layer by layer and row by row the
    weights.  In a freshly constructed model no cell occurs twice. *)
Definition Layer_cells (l : Layer) : list nat :=
  match l with Dense d => concat (map addrs d) end.
Definition Model_cells (m : Model) : list nat :=
  addrs (Biases m) ++ concat (map Layer_cells (Layers m)).
Definition Model_values (h : Heap) (m : Model) : list float32 :=
  map (load h) (Model_cells m).

(** A computation that fills the cells [cs], in this order, with the values
    [D] draws, and writes nowhere else. *)
Definition fills (C : Rand -> M Rand) (cs : list nat)
    (D : Rand -> list float32 * Rand) : Prop :=
  forall (r : Rand) (h : Heap),
    exists h',
      C r h = Ok (snd (D r), h') /\
      map (load h') cs = fst (D r) /\
      (forall a, ~ In a cs -> load h' a = load h a).

(** ** Softmax as the specification words it *)

(** The sum of [e^x_i] over the vector, in [float32], from zero and in
    index order. *)
Definition softmax_sum (h : Heap) (xs : Slice) : float32 :=
  fold_left (fun sp x => F32.add sp (exp x)) (read h xs) F32.zero.

Definition is_finite (x : float32) : bool :=
  match x with
  | S754_zero _ | S754_finite _ _ _ => true
  | _ => false
  end.

(** [0 < x < 1]. *)
Definition in_open_unit (x : float32) : bool :=
  F32.ltb F32.zero x && F32.ltb x F32.one.

(** The [float32] sum of the vector is a number within [1e-5] of 1. *)
Definition sums_to_one (vs : list float32) : Prop :=
  exists q : Q,
    SF2Q (fold_left F32.add vs F32.zero) = Some q /\
    (Qabs (q - 1) <= 1 # 100000)%Q.

(** The two consequences the specification draws: on a finite non-empty
    vector every result lies strictly between 0 and 1, and the results sum
    to 1 within tolerance. *)
Definition Softmax_in_open_unit : Prop :=
  forall (xs : Slice) (h h' : Heap),
    (0 < len xs)%nat ->
    forallb is_finite (read h xs) = true ->
    Softmax xs h = Ok (tt, h') ->
    forallb in_open_unit (read h' xs) = true.

Definition Softmax_sums_to_one : Prop :=
  forall (xs : Slice) (h h' : Heap),
    (0 < len xs)%nat ->
    forallb is_finite (read h xs) = true ->
    Softmax xs h = Ok (tt, h') ->
    sums_to_one (read h' xs).

(** What the counterexamples use of [math.Exp]: [Exp(0) = 1], and
    [Exp(1000) = +Inf] (the argument is beyond the overflow threshold). *)
Definition Exp_contract : Prop :=
  math_Exp (S754_zero false) = binary_normalize F64.prec F64.emax 1 0 false /\
  math_Exp (binary_normalize F64.prec F64.emax 1000 0 false) = S754_infinity false.

(** ** Two freshly constructed models of the same structure

    Each is built by the constructors from the memory the other left:
    layers of shapes (2,3) and (3,1). *)
Definition empty_heap : Heap := mkHeap ∅ 0.
Definition empty_model : Model := mkModel [] (mkSlice 0 0 0) [].

Definition build_model : M Model :=
  l1 <- NewDenseLayer 2 3 ;;
  m1 <- Model_AddLayer empty_model (Dense l1) Ident ;;
  l2 <- NewDenseLayer 3 1 ;;
  Model_AddLayer m1 (Dense l2) Ident.

Definition first_model : Model :=
  mkModel [Dense [mkSlice 0 3 3; mkSlice 3 3 3];
           Dense [mkSlice 7 1 1; mkSlice 8 1 1; mkSlice 9 1 1]]
          (mkSlice 10 2 2) [Ident; Ident].
Definition second_model : Model :=
  mkModel [Dense [mkSlice 12 3 3; mkSlice 15 3 3];
           Dense [mkSlice 19 1 1; mkSlice 20 1 1; mkSlice 21 1 1]]
          (mkSlice 22 2 2) [Ident; Ident].

(** A counter as random source: the uniform draw alternates between 0 and
    1/2, the normal draw between 0 and 1. *)
Definition counter_Float32 (r : nat) : float32 * nat :=
  (if Nat.even r then F32.zero else F32.div (fl 1) (fl 2), S r).
Definition counter_NormFloat64 (r : nat) : float64 * nat :=
  (if Nat.even r then S754_zero false
   else binary_normalize F64.prec F64.emax 1 0 false, S r).


(* ------------------------------------------------------------------ *)
(** * Vocabulary of the rounding lemmas *)

(** The result of [binary_round_aux], given the two mantissas it passes
    through. *)
Definition round_result (prec emax : Z) (s : bool) (q2 e2 : Z) : spec_float :=
  match q2 with
  | Z0 => S754_zero s
  | Zpos m' => if e2 <=? emax - prec then S754_finite s m' e2 else S754_infinity s
  | Zneg _ => S754_nan
  end.

(** [m * 2^e <= B * 2^eb], both sides scaled to the smaller exponent. *)
Definition vle (m e B eb : Z) : Prop :=
  m * 2 ^ (e - Z.min e eb) <= B * 2 ^ (eb - Z.min e eb).

(** The structural order of two positive floats of one sign. *)
Definition mant_le (m' : positive) (e' : Z) (B : positive) (eb : Z) : Prop :=
  e' < eb \/ (e' = eb /\ (m' <= B)%positive).

(** The mantissa of 1 and of 2 in binary32, [2^23]. *)
Definition mant_one : positive := 8388608.

(** A number that is zero or positive, bounded, and at most [(B, eb)]. *)
Definition below (x : spec_float) (B : positive) (eb : Z) : Prop :=
  (exists s, x = S754_zero s) \/
  exists s m e, x = S754_finite s m e /\
    bounded F32.prec F32.emax m e = true /\ mant_le m e B eb.

(** A draw of the uniform source: a valid number with [0 <= u < 1]. *)
Definition unit_draw (u : spec_float) : Prop :=
  F32.valid u = true /\ F32.leb F32.zero u = true /\ F32.ltb u F32.one = true.

(** A finite bound that is not negative: [+0] or a positive bounded number. *)
Definition bound_ok (b : spec_float) : Prop :=
  b = S754_zero false \/
  exists mb eb, b = S754_finite false mb eb /\
                bounded F32.prec F32.emax mb eb = true.

(** [+Inf], or a positive number of magnitude at least 1. *)
Definition at_least_one (x : spec_float) : Prop :=
  x = S754_infinity false \/
  exists m e, x = S754_finite false m e /\ 1 <= Zdigits2 (Zpos m) + e.

(** [+0], or a positive number of magnitude at most [hi]. *)
Definition at_most (hi : Z) (x : spec_float) : Prop :=
  x = S754_zero false \/
  exists m e, x = S754_finite false m e /\ Zdigits2 (Zpos m) + e <= hi.
(* ------------------------------------------------------------------ *)
(** * The accumulation law, whatever the buffers share *)

(** The law of [DenseLayer.Forward] read without a condition on where the
    buffers lie: on a layer of shape (fanIn, fanOut), an input of length
    fanIn and an output buffer of length fanOut, the call returns the buffer
    and every [output[j]] is the initial [output[j]] plus the sum over [i] of
    the initial [input[i] * weight[i][j]]. *)
Definition DenseLayer_Forward_any_buffers : Prop :=
  forall (l : DenseLayer) (in_ out : Slice) (h : Heap) (fanIn fanOut : nat),
    DenseLayer_Shape l = Ok (fanIn, fanOut) ->
    rectangular l fanOut ->
    len in_ = fanIn -> len out = fanOut ->
    exists h',
      DenseLayer_Forward l in_ out h = Ok (out, h') /\
      (forall j, (j < fanOut)%nat ->
         at_ h' out j = accumulate h l in_ j fanIn (at_ h out j)).

(** The layer of shape (2,2) whose weights are all 1, and one vector
    holding [1, 1] that is passed both as input and as output buffer: cells
    0..3 the weights, 4..5 the vector. *)
Definition ones_layer : list Slice := [mkSlice 0 2 2; mkSlice 2 2 2].
Definition ones_heap : Heap :=
  heap_of [fl 1; fl 1; fl 1; fl 1; fl 1; fl 1].

(* ------------------------------------------------------------------ *)
(** * The order of the draws, on the random source itself *)

(** [n] successive draws of one generator of the source, and the state of
    the source afterwards. *)
Fixpoint draw_n {A} (g : Rand -> A * Rand) (n : nat) (r : Rand)
    : list A * Rand :=
  match n with
  | O => ([], r)
  | S k =>
      let (x, r1) := g r in
      let (xs, r2) := draw_n g k r1 in
      (x :: xs, r2)
  end.

(** A standard-normal draw, taken to [float32] and scaled by 1/64. *)
Definition scaled_normal (x : float64) : float32 :=
  F32.div (float32_of_float64 x) (F32.of_Z 64).

(** A uniform draw [u] of [0, 1), moved to [-1, 1) as [2u - 1] and scaled
    by the bound. *)
Definition scaled_uniform (bound u : float32) : float32 :=
  F32.mul (F32.sub (F32.mul (F32.of_Z 2) u) (F32.of_Z 1)) bound.

(** The Xavier bound as the specification gives it,
    [sqrt(6 / (fanIn + fanOut))]: the sum and the quotient in [float32], the
    root taken in [float64] and brought back to [float32]. *)
Definition Xavier_bound (fanIn fanOut : nat) : float32 :=
  float32_of_float64
    (F64.sqrt
       (float64_of_float32
          (F32.div (F32.of_Z 6)
             (F32.add (F32.of_Z (Z.of_nat fanIn))
                      (F32.of_Z (Z.of_nat fanOut)))))).

(** A row of [n] weights in a layer of [fanIn] rows: [n] uniform draws,
    each scaled by the bound of the shape (fanIn, n). *)
Definition row_weights (fanIn n : nat) (r : Rand) : list float32 * Rand :=
  let (us, r') := draw_n Rand_Float32 n r in
  (map (scaled_uniform (Xavier_bound fanIn n)) us, r').

(** The weights of a layer, given the lengths of its rows: row after row. *)
Definition layer_weights (lens : list nat) (r : Rand) : list float32 * Rand :=
  draws_fold (row_weights (length lens)) lens r.

(** The biases and weights of a model of [nb] biases and layers of the
    given row lengths: first one scaled normal draw per bias, then, from the
    state these draws leave, the weights of every layer in layer order. *)
Definition InitWeights_spec (nb : nat) (shapes : list (list nat)) (r : Rand)
    : list float32 * Rand :=
  let (xs, r1) := draw_n Rand_NormFloat64 nb r in
  let (ws, r2) := draws_fold layer_weights shapes r1 in
  (map scaled_normal xs ++ ws, r2).

(** The [k]-th value of a run of draws. *)
Definition nth_draw (us : list float32) (k : nat) : float32 :=
  nth k us F32.zero.

(** [-b <= w <= b]. *)
Definition within (b w : float32) : Prop :=
  F32.leb (F32.neg b) w = true /\ F32.leb w b = true.

(** A computation that succeeds from every state, leaves in each of the
    cells [cs] a value with the property [P] and writes nowhere else. *)
Definition writes (P : float32 -> Prop) (C : Rand -> M Rand) (cs : list nat)
    : Prop :=
  forall (r : Rand) (h : Heap),
    exists (r' : Rand) (h' : Heap),
      C r h = Ok (r', h') /\
      (forall a, In a cs -> P (load h' a)) /\
      (forall a, ~ In a cs -> load h' a = load h a).

(* ------------------------------------------------------------------ *)
(** * Further vocabulary *)

(** The layers compose from an input of length [n]: each is rectangular,
    the first takes [n] values and each next one what the one before it
    gives. *)
Fixpoint composes (n : nat) (ls : list Layer) : Prop :=
  match ls with
  | [] => True
  | Dense d :: ls' =>
      exists q, DenseLayer_Shape d = Ok (n, q) /\ rectangular d q /\
                composes q ls'
  end.

(** Decoding is strictly increasing on the whole of [int8], checked on
    every pair of stored values. *)
Definition Fixed8_ascending : bool :=
  let vs := map (fun s => (s, Fixed8_Float32 s)) int8_values in
  forallb (fun a =>
    forallb (fun b => implb (fst a <? fst b) (F32.ltb (snd a) (snd b))) vs) vs.

(* ------------------------------------------------------------------ *)
(** * Fixed8 *)

Lemma int8_values_complete (s : Z) : is_int8 s -> In s int8_values.
Proof.
  intros [Hlo Hhi]. unfold int8_values.
  apply in_map_iff. exists (Z.to_nat (s + 128)). split; [lia|].
  apply in_seq. lia.
Qed.

Lemma Fixed8_decodes_all : forallb Fixed8_decodes int8_values = true.
Proof. vm_compute. reflexivity. Qed.

(** C7. Decoding is total on int8, has no error case, returns exactly
    [s / 8], and the value lies in [-16, 15.875]. *)
Theorem Fixed8_Float32_exact (s : Fixed8) :
  is_int8 s ->
  exists q : Q,
    SF2Q (Fixed8_Float32 s) = Some q /\
    (q == s # 8)%Q /\ (-16 <= q)%Q /\ (q <= 127 # 8)%Q /\
    F32.valid (Fixed8_Float32 s) = true.
Proof.
  intros Hs.
  pose proof (proj1 (forallb_forall _ _) Fixed8_decodes_all s
                (int8_values_complete s Hs)) as Hc.
  unfold Fixed8_decodes in Hc.
  destruct (SF2Q (Fixed8_Float32 s)) as [q|]; [|discriminate].
  exists q.
  apply andb_prop in Hc as [Hc Hv].
  apply andb_prop in Hc as [Hc Hhi].
  apply andb_prop in Hc as [Heq Hlo].
  repeat split; auto.
  - now apply Qeq_bool_iff.
  - now apply Qle_bool_iff.
  - now apply Qle_bool_iff.
Qed.

(* ------------------------------------------------------------------ *)
(** * IEEE-754 rounding in SpecFloat *)

(** * Binary digits *)

Lemma digits2_pos_bounds (m : positive) :
  2 ^ (Zpos (digits2_pos m) - 1) <= Zpos m < 2 ^ Zpos (digits2_pos m).
Proof.
  induction m as [m IH|m IH|]; cbn [digits2_pos].
  - rewrite Pos2Z.inj_succ.
    replace (Z.succ (Zpos (digits2_pos m)) - 1) with (Z.succ (Zpos (digits2_pos m) - 1)) by lia.
    rewrite !Z.pow_succ_r by lia. lia.
  - rewrite Pos2Z.inj_succ.
    replace (Z.succ (Zpos (digits2_pos m)) - 1) with (Z.succ (Zpos (digits2_pos m) - 1)) by lia.
    rewrite !Z.pow_succ_r by lia. lia.
  - cbn. lia.
Qed.

Lemma Zdigits2_nonneg (m : Z) : 0 <= Zdigits2 m.
Proof. destruct m; cbn; lia. Qed.

Lemma Zdigits2_bounds (m : Z) :
  0 < m -> 2 ^ (Zdigits2 m - 1) <= m < 2 ^ Zdigits2 m.
Proof. destruct m as [|p|p]; try lia. intros _. apply digits2_pos_bounds. Qed.

Lemma Zdigits2_pos (m : Z) : 0 < m -> 0 < Zdigits2 m.
Proof. destruct m; cbn; lia. Qed.

(** [m < 2^n] bounds the digits from above, [2^n <= m] from below. *)
Lemma Zdigits2_le_of_lt (m n : Z) : 0 <= m -> 0 <= n -> m < 2 ^ n -> Zdigits2 m <= n.
Proof.
  intros Hm Hn Hlt. destruct (Z.eq_dec m 0) as [->|Hne]; [cbn; lia|].
  pose proof (Zdigits2_bounds m ltac:(lia)) as [Hlo _].
  pose proof (Zdigits2_pos m ltac:(lia)).
  destruct (Z_le_gt_dec (Zdigits2 m) n) as [|Hgt]; [assumption|].
  assert (2 ^ n <= 2 ^ (Zdigits2 m - 1)) by (apply Z.pow_le_mono_r; lia). lia.
Qed.

Lemma Zdigits2_gt_of_le (m n : Z) : 0 <= n -> 2 ^ n <= m -> n < Zdigits2 m.
Proof.
  intros Hn Hle.
  assert (0 < m) by (pose proof (Z.pow_pos_nonneg 2 n); lia).
  pose proof (Zdigits2_bounds m ltac:(lia)) as [_ Hhi].
  destruct (Z_lt_le_dec n (Zdigits2 m)) as [|Hge]; [assumption|].
  assert (2 ^ Zdigits2 m <= 2 ^ n) by (apply Z.pow_le_mono_r; lia). lia.
Qed.

Lemma Zdigits2_unique (m n : Z) :
  0 < n -> 2 ^ (n - 1) <= m < 2 ^ n -> Zdigits2 m = n.
Proof.
  intros Hn [Hlo Hhi].
  assert (0 < m) by (pose proof (Z.pow_pos_nonneg 2 (n - 1)); lia).
  pose proof (Zdigits2_le_of_lt m n ltac:(lia) ltac:(lia) Hhi).
  pose proof (Zdigits2_gt_of_le m (n - 1) ltac:(lia) Hlo). lia.
Qed.

Lemma Zdigits2_mono (m m' : Z) : 0 <= m <= m' -> Zdigits2 m <= Zdigits2 m'.
Proof.
  intros [Hm Hle]. destruct (Z.eq_dec m' 0) as [->|Hne].
  - assert (m = 0) by lia. subst. lia.
  - pose proof (Zdigits2_bounds m' ltac:(lia)) as [_ Hhi].
    apply Zdigits2_le_of_lt; try lia. apply Zdigits2_nonneg.
Qed.

(** Digits of a quotient by a power of two. *)
Lemma Zdigits2_div_pow2 (m k : Z) :
  0 <= m -> 0 <= k -> Zdigits2 (m / 2 ^ k) = Z.max (Zdigits2 m - k) 0.
Proof.
  intros Hm Hk. pose proof (Z.pow_pos_nonneg 2 k ltac:(lia) Hk) as Hpk.
  destruct (Z.eq_dec m 0) as [->|Hne].
  - rewrite Z.div_0_l by lia. cbn. lia.
  - pose proof (Zdigits2_bounds m ltac:(lia)) as [Hlo Hhi].
    pose proof (Zdigits2_pos m ltac:(lia)) as Hd.
    destruct (Z_le_gt_dec (Zdigits2 m) k) as [Hle|Hgt].
    + assert (2 ^ Zdigits2 m <= 2 ^ k) by (apply Z.pow_le_mono_r; lia).
      rewrite Z.div_small by lia. cbn. lia.
    + rewrite Z.max_l by lia. apply Zdigits2_unique; [lia|]. split.
      * apply Z.div_le_lower_bound; [lia|].
        rewrite <- Z.pow_add_r by lia.
        replace (k + (Zdigits2 m - k - 1)) with (Zdigits2 m - 1) by lia. exact Hlo.
      * apply Z.div_lt_upper_bound; [lia|].
        rewrite <- Z.pow_add_r by lia.
        replace (k + (Zdigits2 m - k)) with (Zdigits2 m) by lia. exact Hhi.
Qed.

(** Digits of a product by a power of two. *)
Lemma Zdigits2_mul_pow2 (m k : Z) :
  0 < m -> 0 <= k -> Zdigits2 (m * 2 ^ k) = Zdigits2 m + k.
Proof.
  intros Hm Hk. pose proof (Z.pow_pos_nonneg 2 k ltac:(lia) Hk) as Hpk.
  pose proof (Zdigits2_bounds m Hm) as [Hlo Hhi].
  pose proof (Zdigits2_pos m Hm) as Hd.
  apply Zdigits2_unique; [lia|]. split.
  - replace (Zdigits2 m + k - 1) with ((Zdigits2 m - 1) + k) by lia.
    rewrite Z.pow_add_r by lia. nia.
  - rewrite Z.pow_add_r by lia. nia.
Qed.

(** Digits of a successor. *)
Lemma Zdigits2_succ (q : Z) :
  0 <= q ->
  Zdigits2 (q + 1) = Zdigits2 q \/
  (Zdigits2 (q + 1) = Zdigits2 q + 1 /\ q + 1 = 2 ^ Zdigits2 q).
Proof.
  intros Hq. destruct (Z.eq_dec q 0) as [->|Hne]; [right; split; reflexivity|].
  pose proof (Zdigits2_bounds q ltac:(lia)) as [Hlo Hhi].
  pose proof (Zdigits2_pos q ltac:(lia)) as Hd.
  destruct (Z.eq_dec (q + 1) (2 ^ Zdigits2 q)) as [Heq|Hneq].
  - right. split; [|exact Heq]. apply Zdigits2_unique; [lia|].
    replace (Zdigits2 q + 1 - 1) with (Zdigits2 q) by lia.
    rewrite Z.pow_add_r by lia. lia.
  - left. apply Zdigits2_unique; [lia|]. lia.
Qed.

(** * Right shifts with round and sticky bits *)

Lemma iter_pos_nat {A} (f : A -> A) (k : positive) (x : A) :
  SpecFloat.iter_pos f k x = Nat.iter (Pos.to_nat k) f x.
Proof.
  revert x. induction k as [k IH|k IH|]; intros x; cbn [SpecFloat.iter_pos].
  - rewrite !IH, Pos2Nat.inj_xI. rewrite <- Nat.iter_add.
    replace (Pos.to_nat k + Pos.to_nat k)%nat with (2 * Pos.to_nat k)%nat by lia.
    now rewrite <- Nat.iter_succ_r.
  - rewrite !IH, Pos2Nat.inj_xO. rewrite <- Nat.iter_add. f_equal. lia.
  - reflexivity.
Qed.

Lemma shr_1_spec (R : shr_record) :
  0 <= shr_m R ->
  shr_m (shr_1 R) = shr_m R / 2 /\
  (Z.even (shr_m R) = true -> shr_r R = false -> shr_s R = false ->
   shr_r (shr_1 R) = false /\ shr_s (shr_1 R) = false).
Proof.
  destruct R as [m r s]. cbn [shr_m shr_r shr_s]. intros Hm.
  rewrite <- Z.div2_div.
  destruct m as [|[p|p|]|p]; cbn; try lia;
    (split; [reflexivity|]); intros He Hr Hs; subst; auto; discriminate He.
Qed.

Lemma iter_shr_1_spec (n : nat) (R : shr_record) :
  0 <= shr_m R ->
  shr_m (Nat.iter n shr_1 R) = shr_m R / 2 ^ Z.of_nat n /\
  (shr_m R mod 2 ^ Z.of_nat n = 0 -> shr_r R = false -> shr_s R = false ->
   shr_r (Nat.iter n shr_1 R) = false /\ shr_s (Nat.iter n shr_1 R) = false).
Proof.
  intros Hm. induction n as [|n [IHm IHx]].
  - change (Nat.iter 0 shr_1 R) with R. rewrite Z.pow_0_r, Z.div_1_r. auto.
  - rewrite Nat.iter_succ.
    pose proof (Z.pow_pos_nonneg 2 (Z.of_nat n) ltac:(lia) ltac:(lia)) as Hp.
    assert (Hnn : 0 <= shr_m (Nat.iter n shr_1 R)).
    { rewrite IHm. apply Z.div_pos; lia. }
    destruct (shr_1_spec _ Hnn) as [H1m H1x].
    rewrite Nat2Z.inj_succ, Z.pow_succ_r by lia. split.
    + rewrite H1m, IHm, Z.div_div by lia. f_equal. lia.
    + intros Hmod Hr Hs.
      apply Z.mod_divide in Hmod; [|lia]. destruct Hmod as [c Hc].
      assert (Hmod' : shr_m R mod 2 ^ Z.of_nat n = 0).
      { rewrite Hc. replace (c * (2 * 2 ^ Z.of_nat n)) with ((c * 2) * 2 ^ Z.of_nat n) by lia.
        apply Z.mod_mul. lia. }
      destruct (IHx Hmod' Hr Hs) as [Hr' Hs'].
      apply H1x; auto. rewrite IHm, Hc.
      replace (c * (2 * 2 ^ Z.of_nat n)) with ((c * 2) * 2 ^ Z.of_nat n) by lia.
      rewrite Z.div_mul by lia. rewrite Z.even_mul. cbn. apply orb_true_r.
Qed.

(** [shr] by [n]: the mantissa is divided by [2^n]; an exact division of an
    exactly located mantissa stays exactly located. *)
Lemma shr_spec (R : shr_record) (e n : Z) :
  0 <= shr_m R ->
  let k := Z.max n 0 in
  shr_m (fst (shr R e n)) = shr_m R / 2 ^ k /\
  snd (shr R e n) = e + k /\
  (shr_m R mod 2 ^ k = 0 -> shr_r R = false -> shr_s R = false ->
   loc_of_shr_record (fst (shr R e n)) = loc_Exact).
Proof.
  intros Hm k. unfold shr. destruct n as [|p|p]; cbn [fst snd]; subst k.
  - rewrite Z.max_r by lia. rewrite Z.pow_0_r, Z.div_1_r.
    split; [reflexivity|]. split; [lia|].
    intros _ Hr Hs. destruct R as [m r s]. cbn in *. now subst.
  - rewrite Z.max_l by lia. rewrite iter_pos_nat.
    destruct (iter_shr_1_spec (Pos.to_nat p) R Hm) as [H1 H2].
    rewrite positive_nat_Z in H1, H2. split; [exact H1|]. split; [reflexivity|].
    intros Hmod Hr Hs. destruct (H2 Hmod Hr Hs) as [Hr' Hs'].
    destruct (Nat.iter (Pos.to_nat p) shr_1 R) as [m' r' s']. cbn in *. now subst.
  - rewrite Z.max_r by lia. rewrite Z.pow_0_r, Z.div_1_r.
    split; [reflexivity|]. split; [lia|].
    intros _ Hr Hs. destruct R as [m r s]. cbn in *. now subst.
Qed.

Lemma shr_record_of_loc_m (m : Z) (l : location) :
  shr_m (shr_record_of_loc m l) = m.
Proof. destruct l as [|[| |]]; reflexivity. Qed.

Lemma round_nearest_even_cases (q : Z) (l : location) :
  round_nearest_even q l = q \/ round_nearest_even q l = q + 1.
Proof.
  destruct l as [|[| |]]; cbn; auto. destruct (Z.even q); auto.
Qed.

Lemma round_nearest_even_exact (q : Z) : round_nearest_even q loc_Exact = q.
Proof. reflexivity. Qed.

Section Round.
Variables prec emax : Z.
Hypothesis prec_pos : 0 < prec.
Hypothesis emax_ge : 2 <= emax.

Local Unset Default Proof Using.

Local Abbreviation emin := (emin prec emax).
Local Abbreviation fexp := (fexp prec emax).


Lemma binary_round_aux_unfold (s : bool) (m e : Z) (l : location) :
  0 <= m ->
  let k1 := Z.max (fexp (Zdigits2 m + e) - e) 0 in
  let q := m / 2 ^ k1 in
  let e1 := e + k1 in
  exists q1,
    (q1 = q \/ q1 = q + 1) /\
    (l = loc_Exact -> m mod 2 ^ k1 = 0 -> q1 = q) /\
    let k2 := Z.max (fexp (Zdigits2 q1 + e1) - e1) 0 in
    binary_round_aux prec emax s m e l = round_result prec emax s (q1 / 2 ^ k2) (e1 + k2).
Proof.
  intros Hm k1 q e1.
  unfold binary_round_aux, shr_fexp.
  assert (HR : 0 <= shr_m (shr_record_of_loc m l))
    by now rewrite shr_record_of_loc_m.
  destruct (shr_spec (shr_record_of_loc m l) e (fexp (Zdigits2 m + e) - e) HR)
    as (Hq & He & Hx).
  rewrite shr_record_of_loc_m in Hq, Hx.
  destruct (shr (shr_record_of_loc m l) e (fexp (Zdigits2 m + e) - e))
    as [R1 e1'] eqn:Hshr1.
  cbn [fst snd] in Hq, He, Hx. fold k1 in Hq, He, Hx. fold q in Hq.
  fold e1 in He. subst e1'.
  set (q1 := round_nearest_even (shr_m R1) (loc_of_shr_record R1)).
  exists q1. split; [|split].
  - subst q1. rewrite Hq. apply round_nearest_even_cases.
  - intros -> Hmod. subst q1. rewrite (Hx Hmod eq_refl eq_refl). now cbn.
  - cbv zeta. set (k2 := Z.max (fexp (Zdigits2 q1 + e1) - e1) 0).
    assert (Hq1 : 0 <= q1).
    { assert (0 <= q).
      { apply Z.div_pos; [lia|]. apply Z.pow_pos_nonneg; lia. }
      subst q1. destruct (round_nearest_even_cases (shr_m R1) (loc_of_shr_record R1))
        as [-> | ->]; lia. }
    assert (HR2 : 0 <= shr_m (shr_record_of_loc q1 loc_Exact)) by (cbn; lia).
    destruct (shr_spec (shr_record_of_loc q1 loc_Exact) e1
                (fexp (Zdigits2 q1 + e1) - e1) HR2) as (Hq2 & He2 & _).
    destruct (shr (shr_record_of_loc q1 loc_Exact) e1 (fexp (Zdigits2 q1 + e1) - e1))
      as [R2 e2'] eqn:Hshr2.
    cbn [fst snd shr_record_of_loc shr_m] in Hq2, He2. fold k2 in Hq2, He2.
    rewrite Hq2, He2. reflexivity.
Qed.

(** The two shifts analysed: when the input is not finer than its
    format allows, the result is zero or canonical, its value is that of
    the rounded mantissa, and its magnitude exceeds the input's by at most
    one binade. *)
Lemma round_analysis (m e q1 : Z) :
  0 <= m ->
  e <= fexp (Zdigits2 m + e) ->
  let e1 := fexp (Zdigits2 m + e) in
  let q := m / 2 ^ (e1 - e) in
  (q1 = q \/ q1 = q + 1) ->
  let k2 := Z.max (fexp (Zdigits2 q1 + e1) - e1) 0 in
  let q2 := q1 / 2 ^ k2 in
  let e2 := e1 + k2 in
  (q1 = 0 /\ q2 = 0 /\ Zdigits2 m + e <= emin) \/
  (0 < q2 /\ fexp (Zdigits2 q2 + e2) = e2 /\ q2 * 2 ^ k2 = q1 /\
   (k2 = 0 \/ k2 = 1) /\
   Zdigits2 q2 + e2 <= Z.max (Zdigits2 m + e) emin + 1 /\
   Z.max (Zdigits2 m + e) (emin + 1) <= Zdigits2 q2 + e2).
Proof.
  intros Hm Hk1 e1 q Hq1 k2 q2 e2.
  assert (Hemin : emin <= e1) by (subst e1; unfold SpecFloat.fexp; lia).
  assert (Hq : 0 <= q).
  { apply Z.div_pos; [lia|]. apply Z.pow_pos_nonneg; lia. }
  assert (Hdq : Zdigits2 q = Z.max (Zdigits2 m + e - e1) 0).
  { subst q. rewrite Zdigits2_div_pow2 by lia. f_equal. lia. }
  assert (He1 : e1 = Z.max (Zdigits2 m + e - prec) emin) by reflexivity.
  assert (Hk2 : k2 = Z.max (Z.max (Zdigits2 q1 + e1 - prec) emin - e1) 0)
    by reflexivity.
  pose proof (Zdigits2_nonneg m) as Hdm.
  destruct (Z.eq_dec q1 0) as [Hz|Hnz].
  { left. split; [exact Hz|]. split.
    - subst q2. rewrite Hz. apply Z.div_0_l.
      pose proof (Z.pow_pos_nonneg 2 k2 ltac:(lia) ltac:(lia)). lia.
    - assert (q = 0) by lia. rewrite H in Hdq. cbn in Hdq.
      unfold SpecFloat.emin in *. lia. }
  right.
  assert (Hq1pos : 0 < q1) by lia.
  assert (Hd1 : Zdigits2 q1 = Zdigits2 q \/
                (Zdigits2 q1 = Zdigits2 q + 1 /\ q1 = 2 ^ Zdigits2 q)).
  { destruct Hq1 as [->| ->]; [now left|]. apply Zdigits2_succ. exact Hq. }
  pose proof (Zdigits2_pos q1 Hq1pos) as Hd1pos.
  pose proof (Zdigits2_nonneg q) as Hdqnn.
  assert (Hk2cases : k2 = 0 \/ (k2 = 1 /\ q1 = 2 ^ Zdigits2 q /\ 0 < Zdigits2 q)).
  { destruct Hd1 as [Hd1|[Hd1 Hpow]]; [left; lia|].
    destruct (Z.eq_dec k2 0); [now left|]. right. lia. }
  assert (Hdq2 : Zdigits2 q2 = Z.max (Zdigits2 q1 - k2) 0).
  { subst q2. apply Zdigits2_div_pow2; lia. }
  assert (Hval : q2 * 2 ^ k2 = q1).
  { destruct Hk2cases as [->|(-> & Hpow & Hpos)].
    - subst q2. rewrite Z.pow_0_r, Z.div_1_r. lia.
    - subst q2. rewrite Hpow.
      assert (Hsplit : 2 ^ Zdigits2 q = 2 ^ (Zdigits2 q - 1) * 2 ^ 1).
      { rewrite <- Z.pow_add_r by lia. f_equal. lia. }
      rewrite Hsplit at 1. rewrite Z.div_mul by (cbn; lia). now rewrite Hsplit. }
  clearbody q q2.
  assert (Hq2pos : 0 < q2).
  { pose proof (Z.pow_pos_nonneg 2 k2 ltac:(lia) ltac:(lia)). nia. }
  split; [exact Hq2pos|]. split; [|split; [exact Hval|split; [lia|]]].
  - unfold SpecFloat.fexp. subst e2. lia.
  - subst e2. lia.
Qed.



Lemma pow2_pos (k : Z) : 0 <= k -> 0 < 2 ^ k.
Proof. intros. apply Z.pow_pos_nonneg; lia. Qed.

Lemma pow2_le (a b : Z) : 0 <= a <= b -> 2 ^ a <= 2 ^ b.
Proof. intros. apply Z.pow_le_mono_r; lia. Qed.

Lemma pow2_lt (a b : Z) : 0 <= a < b -> 2 ^ a < 2 ^ b.
Proof. intros. apply Z.pow_lt_mono_r; lia. Qed.

(** A canonical mantissa has at most [prec] digits. *)
Lemma canonical_digits (B eb : Z) :
  fexp (Zdigits2 B + eb) = eb -> Zdigits2 B <= prec /\ emin <= eb.
Proof. unfold SpecFloat.fexp. lia. Qed.

(** Rounding an exact mantissa never passes a canonical number above it. *)
Lemma round_le (m e B eb q1 : Z) :
  0 <= m ->
  e <= fexp (Zdigits2 m + e) ->
  0 < B -> fexp (Zdigits2 B + eb) = eb ->
  vle m e B eb ->
  let e1 := fexp (Zdigits2 m + e) in
  let q := m / 2 ^ (e1 - e) in
  (q1 = q \/ q1 = q + 1) ->
  (m mod 2 ^ (e1 - e) = 0 -> q1 = q) ->
  let k2 := Z.max (fexp (Zdigits2 q1 + e1) - e1) 0 in
  let q2 := q1 / 2 ^ k2 in
  let e2 := e1 + k2 in
  0 < q2 -> fexp (Zdigits2 q2 + e2) = e2 -> q2 * 2 ^ k2 = q1 ->
  (k2 = 0 \/ k2 = 1) ->
  e2 < eb \/ (e2 = eb /\ q2 <= B).
Proof.
  intros Hm Hk1 HB Hcan Hle e1 q Hq1 Hex k2 q2 e2 Hq2 Hcan2 Hval Hk2.
  destruct (canonical_digits B eb Hcan) as [HdB Heb].
  pose proof (Zdigits2_bounds B HB) as [_ HBhi].
  pose proof (Zdigits2_pos B HB) as HdBpos.
  assert (HBp : B < 2 ^ prec).
  { pose proof (pow2_le (Zdigits2 B) prec ltac:(lia)). lia. }
  assert (He1e : 0 <= e1 - e) by lia.
  pose proof (pow2_pos (e1 - e) He1e) as Hp.
  assert (Hmpos : 0 < m).
  { destruct (Z.eq_dec m 0) as [Hz|]; [|lia]. exfalso.
    assert (Hq1z : q1 = q) by (apply Hex; rewrite Hz; apply Z.mod_0_l; lia).
    assert (Hqz : q = 0) by (subst q; rewrite Hz; apply Z.div_0_l; lia).
    rewrite Hq1z, Hqz in Hval.
    pose proof (pow2_pos k2 ltac:(lia)). nia. }
  pose proof (Zdigits2_bounds m Hmpos) as [Hmlo _].
  pose proof (Zdigits2_pos m Hmpos) as Hdm.
  unfold vle in Hle.
  (* the first exponent does not exceed the bound's *)
  assert (He1 : e1 <= eb).
  { destruct (Z_le_gt_dec e1 eb) as [|Hgt]; [assumption|]. exfalso.
    assert (He1' : e1 = Zdigits2 m + e - prec)
      by (subst e1; unfold SpecFloat.fexp in *; lia).
    destruct (Z_le_gt_dec e eb) as [Hee|Hee].
    - rewrite Z.min_l in Hle by lia. rewrite Z.sub_diag, Z.pow_0_r, Z.mul_1_r in Hle.
      assert (H : 2 ^ (prec + (eb - e)) <= 2 ^ (Zdigits2 m - 1)) by (apply pow2_le; lia).
      rewrite Z.pow_add_r in H by lia.
      pose proof (pow2_pos (eb - e) ltac:(lia)). nia.
    - rewrite Z.min_r in Hle by lia. rewrite Z.sub_diag, Z.pow_0_r, Z.mul_1_r in Hle.
      assert (H : 2 ^ prec <= 2 ^ (Zdigits2 m - 1 + (e - eb))) by (apply pow2_le; lia).
      rewrite Z.pow_add_r in H by lia.
      pose proof (pow2_pos (e - eb) ltac:(lia)). nia. }
  (* the rounded mantissa does not exceed the bound at that exponent *)
  pose proof (pow2_pos (eb - e1) ltac:(lia)) as Hp'.
  assert (Hq1le : q1 <= B * 2 ^ (eb - e1)).
  { rewrite Z.min_l in Hle by lia. rewrite Z.sub_diag, Z.pow_0_r, Z.mul_1_r in Hle.
    replace (eb - e) with ((eb - e1) + (e1 - e)) in Hle by lia.
    rewrite Z.pow_add_r in Hle by lia.
    assert (Hqle : q <= B * 2 ^ (eb - e1)).
    { subst q. apply Z.div_le_upper_bound; [lia|]. lia. }
    destruct Hq1 as [->|Hq1]; [exact Hqle|].
    destruct (Z.eq_dec m (B * 2 ^ (eb - e1) * 2 ^ (e1 - e))) as [Heq|Hne].
    - rewrite Hex in Hq1; [lia|]. rewrite Heq. apply Z.mod_mul. lia.
    - assert (q < B * 2 ^ (eb - e1)).
      { subst q. apply Z.div_lt_upper_bound; [lia|]. lia. }
      lia. }
  destruct (canonical_digits q2 e2 Hcan2) as [Hd2 _].
  pose proof (Zdigits2_bounds q2 Hq2) as [Hq2lo _].
  destruct (Z_lt_le_dec e2 eb) as [|Hge]; [now left|]. right.
  destruct Hk2 as [Hk2|Hk2]; rewrite Hk2 in *.
  - assert (eb = e1) by lia. subst eb.
    rewrite Z.sub_diag, Z.pow_0_r in Hq1le. rewrite Z.pow_0_r in Hval. lia.
  - destruct (Z.eq_dec eb (e1 + 1)) as [Heq|Hne].
    + split; [lia|]. rewrite Heq in Hq1le.
      replace (e1 + 1 - e1) with 1 in Hq1le by lia. lia.
    + exfalso. assert (eb = e1) by lia. subst eb.
      rewrite Z.sub_diag, Z.pow_0_r in Hq1le.
      assert (Hd2' : Zdigits2 q2 = prec).
      { unfold SpecFloat.fexp in Hcan2. subst e2. lia. }
      rewrite Hd2' in Hq2lo.
      assert (2 ^ prec = 2 ^ (prec - 1) * 2 ^ 1).
      { rewrite <- Z.pow_add_r by lia. f_equal. lia. }
      lia.
Qed.


Lemma bounded_spec (m : positive) (e : Z) :
  bounded prec emax m e = true <->
  fexp (Zdigits2 (Zpos m) + e) = e /\ e <= emax - prec.
Proof.
  unfold bounded, canonical_mantissa. cbn [Zdigits2].
  rewrite andb_true_iff, Z.eqb_eq, Z.leb_le. reflexivity.
Qed.


(** Magnitude of the outcome of [binary_round_aux] on an input that is not
    finer than the format: zero, or a bounded number within one binade of
    the input, or an overflow that the input's magnitude explains. *)
Lemma binary_round_aux_cases (s : bool) (m e : Z) (l : location) :
  0 <= m -> e <= fexp (Zdigits2 m + e) ->
  let D := Zdigits2 m + e in
  (binary_round_aux prec emax s m e l = S754_zero s /\ D <= emin) \/
  (exists m' e',
      binary_round_aux prec emax s m e l = S754_finite s m' e' /\
      bounded prec emax m' e' = true /\
      Z.max D (emin + 1) <= Zdigits2 (Zpos m') + e' <= Z.max D emin + 1) \/
  (binary_round_aux prec emax s m e l = S754_infinity s /\
   emax < Z.max D emin + 1).
Proof.
  intros Hm Hk1 D.
  destruct (binary_round_aux_unfold s m e l Hm) as (q1 & Hq1 & _ & Hres).
  cbv zeta in Hres.
  rewrite (Z.max_l (fexp (Zdigits2 m + e) - e) 0) in Hq1, Hres by lia.
  replace (e + (fexp (Zdigits2 m + e) - e)) with (fexp (Zdigits2 m + e)) in Hres by lia.
  destruct (round_analysis m e q1 Hm Hk1 Hq1)
    as [(_ & Hz & HDz)|(Hq2 & Hcan & _ & _ & Hhi & Hlo)].
  - left. rewrite Hres, Hz. split; [reflexivity | exact HDz].
  - right. rewrite Hres.
    set (k2 := Z.max (fexp (Zdigits2 q1 + fexp (Zdigits2 m + e)) - fexp (Zdigits2 m + e)) 0) in *.
    set (q2 := q1 / 2 ^ k2) in *. set (e2 := fexp (Zdigits2 m + e) + k2) in *.
    destruct q2 as [|m'|m'] eqn:Eq2; try lia. cbn [round_result].
    destruct (Z.leb_spec e2 (emax - prec)) as [Hfin|Hinf].
    + left. exists m', e2. split; [reflexivity|]. split; [|fold D in Hhi, Hlo; lia].
      apply bounded_spec. auto.
    + right. split; [reflexivity|]. fold D in Hhi.
      unfold SpecFloat.fexp, SpecFloat.emin in *. lia.
Qed.

(** The same for an exactly known mantissa below a bounded number: no
    overflow, and the outcome stays below that number. *)
Lemma binary_round_aux_le (s : bool) (m e : Z) (B : positive) (eb : Z) :
  0 <= m -> e <= fexp (Zdigits2 m + e) ->
  bounded prec emax B eb = true ->
  vle m e (Zpos B) eb ->
  binary_round_aux prec emax s m e loc_Exact = S754_zero s \/
  exists m' e',
    binary_round_aux prec emax s m e loc_Exact = S754_finite s m' e' /\
    bounded prec emax m' e' = true /\ mant_le m' e' B eb.
Proof.
  intros Hm Hk1 HB Hle. apply bounded_spec in HB as [HcanB HebB].
  destruct (binary_round_aux_unfold s m e loc_Exact Hm) as (q1 & Hq1 & Hex & Hres).
  cbv zeta in Hres.
  rewrite (Z.max_l (fexp (Zdigits2 m + e) - e) 0) in Hq1, Hex, Hres by lia.
  replace (e + (fexp (Zdigits2 m + e) - e)) with (fexp (Zdigits2 m + e)) in Hres by lia.
  specialize (Hex eq_refl).
  destruct (round_analysis m e q1 Hm Hk1 Hq1)
    as [(_ & Hz & _)|(Hq2 & Hcan & Hval & Hk2 & _ & _)].
  - left. rewrite Hres, Hz. reflexivity.
  - right. rewrite Hres.
    pose proof (round_le m e (Zpos B) eb q1 Hm Hk1 ltac:(lia) HcanB Hle Hq1 Hex
                  Hq2 Hcan Hval Hk2) as Hord.
    set (k2 := Z.max (fexp (Zdigits2 q1 + fexp (Zdigits2 m + e)) - fexp (Zdigits2 m + e)) 0) in *.
    set (q2 := q1 / 2 ^ k2) in *. set (e2 := fexp (Zdigits2 m + e) + k2) in *.
    destruct q2 as [|m'|m'] eqn:Eq2; try lia. cbn [round_result].
    destruct (Z.leb_spec e2 (emax - prec)) as [Hfin|Hinf]; [|lia].
    exists m', e2. split; [reflexivity|]. split.
    + apply bounded_spec. auto.
    + unfold mant_le. destruct Hord as [|[? ?]]; [now left|right]. split; [assumption|].
      lia.
Qed.

(** On any input and location: no overflow when the magnitude and the
    exponent leave room; the outcome is within one binade of the input. *)
Lemma binary_round_aux_finite (s : bool) (m e : Z) (l : location) :
  0 <= m ->
  let D := Zdigits2 m + e in
  Z.max D emin + 1 <= emax -> e <= emax - prec ->
  binary_round_aux prec emax s m e l = S754_zero s \/
  exists m' e',
    binary_round_aux prec emax s m e l = S754_finite s m' e' /\
    Zdigits2 (Zpos m') + e' <= Z.max D emin + 1.
Proof.
  intros Hm D HD He.
  destruct (Z_le_gt_dec e (fexp (Zdigits2 m + e))) as [Hk1|Hk1].
  - destruct (binary_round_aux_cases s m e l Hm Hk1)
      as [[Hz _]|[(m' & e' & Hr & _ & Hmag)|[_ Hover]]].
    + now left.
    + right. exists m', e'. split; [exact Hr|]. fold D in Hmag. lia.
    + fold D in Hover. lia.
  - destruct (binary_round_aux_unfold s m e l Hm) as (q1 & Hq1 & _ & Hres).
    cbv zeta in Hres.
    rewrite (Z.max_r (fexp (Zdigits2 m + e) - e) 0) in Hq1, Hres by lia.
    rewrite Z.pow_0_r, Z.div_1_r in Hq1. rewrite Z.add_0_r in Hres.
    assert (Hd1 : Zdigits2 q1 <= Zdigits2 m + 1).
    { destruct Hq1 as [->| ->]; [lia|].
      destruct (Zdigits2_succ m Hm) as [->|[-> _]]; lia. }
    rewrite Z.max_r in Hres by (unfold SpecFloat.fexp in *; lia).
    rewrite Z.pow_0_r, Z.div_1_r, Z.add_0_r in Hres. rewrite Hres.
    destruct q1 as [|m'|m']; [now left| |lia]. right. cbn [round_result].
    destruct (Z.leb_spec e (emax - prec)); [|lia].
    exists m', e. split; [reflexivity|]. subst D. lia.
Qed.


(** ** Alignment and [binary_round] *)

Lemma iter_xO_pow2 (m d : positive) :
  Zpos (Pos.iter xO m d) = Zpos m * 2 ^ Zpos d.
Proof.
  rewrite (Pos.iter_swap_gen _ _ Zpos xO (Z.mul 2)) by reflexivity.
  change (Pos.iter (Z.mul 2) (Zpos m) d) with (Z.shiftl (Zpos m) (Zpos d)).
  apply Z.shiftl_mul_pow2. lia.
Qed.

Lemma shl_align_spec (mx : positive) (ex ex' : Z) :
  snd (shl_align mx ex ex') = Z.min ex ex' /\
  Zpos (fst (shl_align mx ex ex')) = Zpos mx * 2 ^ (ex - Z.min ex ex').
Proof.
  unfold shl_align. destruct (ex' - ex) as [|d|d] eqn:Hd; cbn [fst snd].
  - rewrite Z.min_l by lia. rewrite Z.sub_diag. cbn. lia.
  - rewrite Z.min_l by lia. rewrite Z.sub_diag. cbn. lia.
  - rewrite Z.min_r by lia. split; [reflexivity|].
    rewrite iter_xO_pow2. f_equal. f_equal. lia.
Qed.

Lemma binary_round_aligned (s : bool) (mx : positive) (ex : Z) :
  exists m e,
    binary_round prec emax s mx ex = binary_round_aux prec emax s m e loc_Exact /\
    0 < m /\ e <= fexp (Zdigits2 m + e) /\
    Zdigits2 m + e = Zdigits2 (Zpos mx) + ex /\
    e <= ex /\ m = Zpos mx * 2 ^ (ex - e).
Proof.
  unfold binary_round.
  destruct (shl_align_spec mx ex (fexp (Zpos (digits2_pos mx) + ex))) as [He Hm].
  destruct (shl_align mx ex (fexp (Zpos (digits2_pos mx) + ex))) as [mz ez].
  cbn [fst snd] in He, Hm.
  exists (Zpos mz), ez. split; [reflexivity|].
  assert (Hle : ez <= ex) by lia.
  assert (Hd : Zdigits2 (Zpos mz) + ez = Zdigits2 (Zpos mx) + ex).
  { rewrite Hm, Zdigits2_mul_pow2 by lia. lia. }
  split; [lia|]. split; [|split; [exact Hd|split; [exact Hle|]]].
  - rewrite Hd. cbn [Zdigits2]. lia.
  - rewrite Hm. f_equal. f_equal. lia.
Qed.

Lemma binary_round_cases (s : bool) (mx : positive) (ex : Z) :
  let D := Zdigits2 (Zpos mx) + ex in
  (binary_round prec emax s mx ex = S754_zero s /\ D <= emin) \/
  (exists m' e',
      binary_round prec emax s mx ex = S754_finite s m' e' /\
      bounded prec emax m' e' = true /\
      Z.max D (emin + 1) <= Zdigits2 (Zpos m') + e' <= Z.max D emin + 1) \/
  (binary_round prec emax s mx ex = S754_infinity s /\
   emax < Z.max D emin + 1).
Proof.
  intros D.
  destruct (binary_round_aligned s mx ex) as (m & e & -> & Hm & Hk1 & HD & _ & _).
  subst D. rewrite <- HD. apply binary_round_aux_cases; lia.
Qed.

Lemma vle_scale (m e k B eb : Z) :
  0 <= k -> 0 <= m -> vle m e B eb -> vle (m * 2 ^ k) (e - k) B eb.
Proof.
  intros Hk Hm. unfold vle. intros H.
  destruct (Z_le_gt_dec e eb) as [Hee|Hee].
  - rewrite Z.min_l in H by lia. rewrite Z.min_l by lia.
    rewrite Z.sub_diag, Z.pow_0_r, Z.mul_1_r in *.
    replace (eb - (e - k)) with ((eb - e) + k) by lia.
    rewrite Z.pow_add_r by lia. pose proof (pow2_pos k Hk). nia.
  - rewrite Z.min_r in H by lia. rewrite Z.sub_diag, Z.pow_0_r, Z.mul_1_r in H.
    destruct (Z_le_gt_dec (e - k) eb) as [Hek|Hek].
    + rewrite Z.min_l by lia. rewrite Z.sub_diag, Z.pow_0_r, Z.mul_1_r.
      replace k with ((e - eb) + (eb - (e - k))) at 1 by lia.
      rewrite Z.pow_add_r by lia.
      pose proof (pow2_pos (eb - (e - k)) ltac:(lia)). nia.
    + rewrite Z.min_r by lia. rewrite Z.sub_diag, Z.pow_0_r, Z.mul_1_r.
      replace (e - eb) with (k + (e - k - eb)) in H by lia.
      rewrite Z.pow_add_r in H by lia. lia.
Qed.

Lemma binary_round_le (s : bool) (mx : positive) (ex : Z) (B : positive) (eb : Z) :
  bounded prec emax B eb = true ->
  vle (Zpos mx) ex (Zpos B) eb ->
  binary_round prec emax s mx ex = S754_zero s \/
  exists m' e',
    binary_round prec emax s mx ex = S754_finite s m' e' /\
    bounded prec emax m' e' = true /\ mant_le m' e' B eb.
Proof.
  intros HB Hle.
  destruct (binary_round_aligned s mx ex) as (m & e & -> & Hm & Hk1 & _ & Hee & Hmv).
  apply binary_round_aux_le; try lia; [exact HB|].
  rewrite Hmv. replace e with (ex - (ex - e)) at 2 by lia.
  apply vle_scale; try lia. exact Hle.
Qed.

End Round.

Section Cores.
Variables prec emax : Z.

Local Unset Default Proof Using.

Local Abbreviation fexp := (fexp prec emax).

(** The quotient mantissa of a division has at most one digit more than
    the magnitudes of the operands allow. *)
Lemma SFdiv_core_binary_spec (m1 e1 m2 e2 : Z) :
  0 < m1 -> 0 < m2 ->
  let D := (Zdigits2 m1 + e1) - (Zdigits2 m2 + e2) in
  let '(q, e', _) := SFdiv_core_binary prec emax m1 e1 m2 e2 in
  0 <= q /\ Zdigits2 q + e' <= Z.max (D + 1) e' /\ e' <= fexp D.
Proof.
  intros Hm1 Hm2 D. unfold SFdiv_core_binary.
  set (e' := Z.min (fexp (Zdigits2 m1 + e1 - (Zdigits2 m2 + e2))) (e1 - e2)).
  set (s := e1 - e2 - e').
  assert (Hs : 0 <= s) by (subst s e'; lia).
  set (m' := match s with Z.pos _ => Z.shiftl m1 s | 0 => m1 | Z.neg _ => 0 end).
  assert (Hm' : m' = m1 * 2 ^ s).
  { subst m'. clearbody s. destruct s as [|p|p]; try lia.
    - apply Z.shiftl_mul_pow2. lia. }
  destruct (Z.div_eucl m' m2) as [q r] eqn:Hdiv.
  assert (Hq : q = m' / m2) by (unfold Z.div; now rewrite Hdiv).
  pose proof (pow2_pos s Hs) as Hps.
  assert (Hqnn : 0 <= q) by (rewrite Hq; apply Z.div_pos; nia).
  split; [exact Hqnn|]. split; [|subst e' D; lia].
  pose proof (Zdigits2_bounds m1 Hm1) as [_ H1hi].
  pose proof (Zdigits2_bounds m2 Hm2) as [H2lo _].
  pose proof (Zdigits2_pos m1 Hm1) as Hd1.
  pose proof (Zdigits2_pos m2 Hm2) as Hd2.
  assert (Hqm : q * m2 <= m') by (rewrite Hq, Z.mul_comm; apply Z.mul_div_le; lia).
  set (n := Zdigits2 m1 + s - Zdigits2 m2 + 1).
  assert (HDn : D + 1 = n + e') by (subst D n s; lia).
  assert (Hdq : Zdigits2 q <= Z.max n 0).
  { destruct (Z_le_gt_dec n 0) as [Hn|Hn].
    - assert (q = 0); [|subst q; rewrite H; cbn; lia].
      assert (Hle : 2 ^ (Zdigits2 m1 + s) <= 2 ^ (Zdigits2 m2 - 1))
        by (apply pow2_le; subst n; lia).
      rewrite Z.pow_add_r in Hle by lia.
      assert (m' < m2) by nia.
      rewrite Hq. apply Z.div_small. nia.
    - rewrite Z.max_l by lia. apply Zdigits2_le_of_lt; try lia.
      assert (Hsplit : 2 ^ (Zdigits2 m1 + s) = 2 ^ n * 2 ^ (Zdigits2 m2 - 1)).
      { rewrite <- Z.pow_add_r by lia. f_equal. subst n. lia. }
      rewrite Z.pow_add_r in Hsplit by lia.
      pose proof (pow2_pos (Zdigits2 m2 - 1) ltac:(lia)).
      pose proof (pow2_pos n ltac:(lia)). nia. }
  lia.
Qed.

(** The root mantissa has about half the magnitude of the radicand. *)
Lemma SFsqrt_core_binary_spec (m e : Z) :
  0 < m ->
  let '(q, e', _) := SFsqrt_core_binary prec emax m e in
  0 <= q /\ 2 * (Zdigits2 q + e') <= Zdigits2 m + e + 1 /\
  e' <= fexp (Z.div2 (Zdigits2 m + e + 1)).
Proof.
  intros Hm. unfold SFsqrt_core_binary.
  set (e' := Z.min (fexp (Z.div2 (Zdigits2 m + e + 1))) (Z.div2 e)).
  set (s := e - 2 * e').
  assert (Hdiv2 : 2 * Z.div2 e <= e).
  { rewrite Z.div2_div. apply Z.mul_div_le. lia. }
  assert (Hs : 0 <= s) by (subst s e'; lia).
  set (m' := match s with Z.pos _ => Z.shiftl m s | 0 => m | Z.neg _ => 0 end).
  assert (Hm' : m' = m * 2 ^ s).
  { subst m'. clearbody s. destruct s as [|p|p]; try lia.
    - apply Z.shiftl_mul_pow2. lia. }
  pose proof (pow2_pos s Hs) as Hps.
  pose proof (Z.sqrtrem_spec m' ltac:(nia)) as Hspec.
  destruct (Z.sqrtrem m') as [q r]. destruct Hspec as [Hmq Hr].
  assert (Hqnn : 0 <= q) by lia.
  split; [exact Hqnn|]. split; [|subst e'; lia].
  pose proof (Zdigits2_bounds m Hm) as [_ Hhi].
  pose proof (Zdigits2_pos m Hm) as Hd.
  set (n := (Zdigits2 m + s + 1) / 2).
  assert (Hn : Zdigits2 m + s <= 2 * n /\ 2 * n <= Zdigits2 m + s + 1).
  { subst n. pose proof (Z.mul_div_le (Zdigits2 m + s + 1) 2 ltac:(lia)).
    pose proof (Z.mul_succ_div_gt (Zdigits2 m + s + 1) 2 ltac:(lia)). lia. }
  assert (Hq : q < 2 ^ n).
  { destruct (Z_lt_le_dec q (2 ^ n)) as [|Hge]; [assumption|]. exfalso.
    assert (Hle : 2 ^ (Zdigits2 m + s) <= 2 ^ (n + n)) by (apply pow2_le; lia).
    rewrite !Z.pow_add_r in Hle by lia.
    pose proof (pow2_pos n ltac:(lia)). nia. }
  assert (Zdigits2 q <= n) by (apply Zdigits2_le_of_lt; lia).
  subst s. lia.
Qed.

End Cores.


(** * The arithmetic of one weight in binary32 *)

Lemma F32_prec_pos : 0 < F32.prec. Proof. reflexivity. Qed.
Lemma F32_emax_ge : 2 <= F32.emax. Proof. unfold F32.emax. lia. Qed.



Lemma bounded32_digits (m : positive) (e : Z) :
  bounded F32.prec F32.emax m e = true ->
  Zdigits2 (Zpos m) <= 24 /\ -149 <= e <= 104 /\
  Zpos m < 2 ^ 24 /\ (-149 < e -> Zdigits2 (Zpos m) = 24).
Proof.
  intros H. apply (bounded_spec F32.prec F32.emax) in H as [Hc He].
  unfold fexp, emin, F32.prec, F32.emax in *.
  pose proof (Zdigits2_bounds (Zpos m) ltac:(lia)) as [_ Hhi].
  pose proof (Zdigits2_pos (Zpos m) ltac:(lia)).
  assert (Zdigits2 (Zpos m) <= 24) by lia.
  pose proof (pow2_le (Zdigits2 (Zpos m)) 24 ltac:(lia)).
  repeat split; lia.
Qed.

(** A bounded mantissa at most one is at most [2^(-e)]. *)
Lemma below_one_mant (m : positive) (e : Z) :
  bounded F32.prec F32.emax m e = true ->
  mant_le m e mant_one (-23) ->
  e <= -23 /\ Zpos m <= 2 ^ (- e).
Proof.
  intros Hb Hle. destruct (bounded32_digits m e Hb) as (_ & _ & Hm & _).
  destruct Hle as [Hlt|[-> Hle]].
  - split; [lia|]. pose proof (pow2_le 24 (- e) ltac:(lia)). lia.
  - apply Pos2Z.pos_le_pos in Hle. change (Zpos mant_one) with 8388608 in Hle.
    split; [apply Z.le_refl|]. change (2 ^ (- -23)) with 8388608. exact Hle.
Qed.

(** [2 * u] for [u] in [0, 1]. *)
Lemma mul_two_below (u : spec_float) :
  below u mant_one (-23) ->
  (forall s m e, u = S754_finite s m e -> s = false) ->
  below (F32.mul (F32.of_Z 2) u) mant_one (-22) /\
  (forall s m e, F32.mul (F32.of_Z 2) u = S754_finite s m e -> s = false).
Proof.
  intros [[s ->]|(s & m & e & -> & Hb & Hle)] Hsign.
  - split; [left; eexists; reflexivity | intros; discriminate].
  - rewrite (Hsign s m e eq_refl) in *. clear Hsign.
    destruct (below_one_mant m e Hb Hle) as [He Hm].
    destruct (bounded32_digits m e Hb) as (Hd & _ & _ & _).
    change (F32.mul (F32.of_Z 2) (S754_finite false m e))
      with (binary_round_aux F32.prec F32.emax false
              (Zpos (8388608 * m)) (-22 + e) loc_Exact).
    pose proof (Zdigits2_pos (Zpos m) ltac:(lia)) as Hdpos.
    assert (Hdig : Zdigits2 (Zpos (8388608 * m)) = Zdigits2 (Zpos m) + 23).
    { rewrite Pos2Z.inj_mul, Z.mul_comm.
      change (Zpos 8388608) with (2 ^ 23). apply Zdigits2_mul_pow2; lia. }
    destruct (binary_round_aux_le F32.prec F32.emax F32_prec_pos F32_emax_ge
                false (Zpos (8388608 * m)) (-22 + e) mant_one (-22))
      as [Hz|(m' & e' & Hr & Hb' & Hle')].
    + lia.
    + rewrite Hdig. unfold fexp, emin, F32.prec, F32.emax. lia.
    + reflexivity.
    + unfold vle. rewrite Z.min_l by lia.
      rewrite Z.sub_diag, Z.pow_0_r, Z.mul_1_r.
      replace (-22 - (-22 + e)) with (- e) by lia.
      rewrite Pos2Z.inj_mul. unfold mant_one.
      pose proof (pow2_pos (- e) ltac:(lia)). nia.
    + rewrite Hz. split; [left; eexists; reflexivity | intros; discriminate].
    + rewrite Hr. split.
      * right. exists false, m', e'. auto.
      * intros s0 m0 e0 [= <- _ _]. reflexivity.
Qed.

(** [x - 1] for [x] in [0, 2]. *)
Lemma sub_one_below (x : spec_float) :
  below x mant_one (-22) ->
  (forall s m e, x = S754_finite s m e -> s = false) ->
  below (F32.sub x (F32.of_Z 1)) mant_one (-23).
Proof.
  intros [[s ->]|(s & m & e & -> & Hb & Hle)] Hsign.
  - right. exists true, mant_one, (-23). split; [reflexivity|].
    split; [reflexivity|]. right. split; [reflexivity|]. lia.
  - rewrite (Hsign s m e eq_refl) in *. clear Hsign.
    destruct (bounded32_digits m e Hb) as (_ & _ & Hm & _).
    change (F32.sub (S754_finite false m e) (F32.of_Z 1))
      with (binary_normalize F32.prec F32.emax
              (Zpos (fst (shl_align m e (Z.min e (-23))))
               - Zpos (fst (shl_align mant_one (-23) (Z.min e (-23)))))
              (Z.min e (-23)) false).
    destruct (shl_align_spec m e (Z.min e (-23))) as [_ HM2].
    destruct (shl_align_spec mant_one (-23) (Z.min e (-23))) as [_ HM1].
    set (ez := Z.min e (-23)) in *.
    rewrite (Z.min_r e ez) in HM2 by (subst ez; lia).
    rewrite (Z.min_r (-23) ez) in HM1 by (subst ez; lia).
    set (M2 := Zpos (fst (shl_align m e ez))) in *.
    set (M1 := Zpos (fst (shl_align mant_one (-23) ez))) in *.
    assert (HM : 0 < M2 /\ M2 <= 2 * M1 /\ 0 < M1).
    { unfold mant_one in *. destruct Hle as [Hlt|[-> Hle]];
        [|apply Pos2Z.pos_le_pos in Hle].
      - assert (ez = e) by (subst ez; lia).
        rewrite H, Z.sub_diag, Z.pow_0_r in HM2.
        pose proof (pow2_le 0 (-23 - ez) ltac:(lia)) as Hp.
        rewrite Z.pow_0_r in Hp. lia.
      - assert (ez = -23) by (subst ez; lia).
        rewrite H in HM2, HM1. cbn in HM2, HM1. lia. }
    assert (Hez : ez <= -23) by (subst ez; lia).
    assert (Hvle : forall d, 0 < Zpos d <= M1 -> vle (Zpos d) ez (Zpos mant_one) (-23)).
    { intros d Hd. unfold vle. rewrite Z.min_l by lia.
      rewrite Z.sub_diag, Z.pow_0_r, Z.mul_1_r. rewrite <- HM1. lia. }
    destruct (M2 - M1) as [|d|d] eqn:Hdiff; cbn [binary_normalize].
    + left. eexists. reflexivity.
    + destruct (binary_round_le F32.prec F32.emax F32_prec_pos F32_emax_ge
                  false d ez mant_one (-23) eq_refl (Hvle d ltac:(lia)))
        as [Hz|(m' & e' & Hr & Hb' & Hle')].
      * left. eexists. exact Hz.
      * right. exists false, m', e'. auto.
    + destruct (binary_round_le F32.prec F32.emax F32_prec_pos F32_emax_ge
                  true d ez mant_one (-23) eq_refl (Hvle d ltac:(lia)))
        as [Hz|(m' & e' & Hr & Hb' & Hle')].
      * left. eexists. exact Hz.
      * right. exists true, m', e'. auto.
Qed.

(** [t * b] for [|t| <= 1] and a positive bounded [b]. *)
Lemma mul_below (x : spec_float) (mb : positive) (eb : Z) :
  below x mant_one (-23) ->
  bounded F32.prec F32.emax mb eb = true ->
  below (F32.mul x (S754_finite false mb eb)) mb eb.
Proof.
  intros [[s ->]|(s & m & e & -> & Hb & Hle)] Hbb.
  - left. eexists. reflexivity.
  - destruct (below_one_mant m e Hb Hle) as [He Hm].
    destruct (bounded32_digits m e Hb) as (Hd & _ & _ & _).
    destruct (bounded32_digits mb eb Hbb) as (Hdb & Hebr & _ & Hnorm).
    change (F32.mul (S754_finite s m e) (S754_finite false mb eb))
      with (binary_round_aux F32.prec F32.emax (xorb s false)
              (Zpos (m * mb)) (e + eb) loc_Exact).
    pose proof (Zdigits2_bounds (Zpos m) ltac:(lia)) as [Hmlo _].
    pose proof (Zdigits2_bounds (Zpos mb) ltac:(lia)) as [Hblo _].
    pose proof (Zdigits2_pos (Zpos m) ltac:(lia)) as Hdpos.
    pose proof (Zdigits2_pos (Zpos mb) ltac:(lia)) as Hdbpos.
    assert (Hdig : Zdigits2 (Zpos m) + Zdigits2 (Zpos mb) - 1
                   <= Zdigits2 (Zpos (m * mb))).
    { assert (Zdigits2 (Zpos m) + Zdigits2 (Zpos mb) - 2 < Zdigits2 (Zpos (m * mb)));
        [|lia].
      apply Zdigits2_gt_of_le; [lia|].
      replace (Zdigits2 (Zpos m) + Zdigits2 (Zpos mb) - 2)
        with ((Zdigits2 (Zpos m) - 1) + (Zdigits2 (Zpos mb) - 1)) by lia.
      rewrite Z.pow_add_r by lia. rewrite Pos2Z.inj_mul.
      pose proof (pow2_pos (Zdigits2 (Zpos m) - 1) ltac:(lia)).
      pose proof (pow2_pos (Zdigits2 (Zpos mb) - 1) ltac:(lia)). nia. }
    destruct (binary_round_aux_le F32.prec F32.emax F32_prec_pos F32_emax_ge
                (xorb s false) (Zpos (m * mb)) (e + eb) mb eb)
      as [Hz|(m' & e' & Hr & Hb' & Hle')].
    + lia.
    + unfold fexp, emin, F32.prec, F32.emax.
      destruct (Z.eq_dec eb (-149)) as [->|Hne]; [lia|].
      rewrite Hnorm in Hdig by lia. lia.
    + exact Hbb.
    + unfold vle. rewrite Z.min_l by lia.
      rewrite Z.sub_diag, Z.pow_0_r, Z.mul_1_r.
      replace (eb - (e + eb)) with (- e) by lia. rewrite Pos2Z.inj_mul.
      pose proof (pow2_pos (- e) ltac:(lia)). nia.
    + left. eexists. exact Hz.
    + right. exists (xorb s false), m', e'. auto.
Qed.

(** The structural comparisons that [below] settles. *)
Lemma below_leb (w : spec_float) (mb : positive) (eb : Z) :
  below w mb eb ->
  F32.leb (F32.neg (S754_finite false mb eb)) w = true /\
  F32.leb w (S754_finite false mb eb) = true.
Proof.
  intros [[s ->]|(s & m & e & -> & _ & Hle)].
  - split; reflexivity.
  - unfold F32.leb, F32.neg, SFleb, SFopp, SFcompare. cbn [negb].
    destruct s.
    + split; [|reflexivity].
      destruct Hle as [Hlt|[-> Hle]].
      * apply Z.compare_gt_iff in Hlt as ->. reflexivity.
      * rewrite Z.compare_refl.
        change (Pos.compare_cont Eq mb m) with (Pos.compare mb m).
        destruct (Pos.compare_spec mb m); try reflexivity. lia.
    + split; [reflexivity|].
      destruct Hle as [Hlt|[-> Hle]].
      * apply Z.compare_lt_iff in Hlt as ->. reflexivity.
      * rewrite Z.compare_refl.
        change (Pos.compare_cont Eq m mb) with (Pos.compare m mb).
        destruct (Pos.compare_spec m mb); try reflexivity. lia.
Qed.



Lemma unit_draw_below (u : spec_float) :
  unit_draw u ->
  below u mant_one (-23) /\ (forall s m e, u = S754_finite s m e -> s = false).
Proof.
  intros (Hv & Hlo & Hhi).
  change F32.one with (S754_finite false 8388608 (-23)) in Hhi.
  unfold F32.ltb, SFltb in Hhi. unfold F32.leb, SFleb, F32.zero in Hlo.
  destruct u as [s|s| |s m e]; cbn [SFcompare] in Hhi, Hlo; try discriminate Hhi.
  - split; [left; eexists; reflexivity | intros; discriminate].
  - destruct s; discriminate.
  - destruct s; [discriminate Hlo|].
    split; [|intros s0 m0 e0 [= <- _ _]; reflexivity].
    right. exists false, m, e. split; [reflexivity|]. split; [exact Hv|].
    unfold mant_le, mant_one.
    destruct (Z.compare_spec e (-23)) as [->|Hlt|Hgt]; try discriminate Hhi.
    + right. split; [reflexivity|].
      destruct (Pos.compare_cont Eq m 8388608) eqn:Hc; try discriminate Hhi.
      rewrite Pos.compare_cont_spec in Hc.
      destruct (Pos.compare_spec m 8388608) as [Heq|Hl|Hg];
        try discriminate Hc.
      apply Pos.lt_le_incl. exact Hl.
    + now left.
Qed.

(** One weight, [(2*u - 1) * b], lies in [-b, b]. *)
Lemma weight_bounds (u b : spec_float) :
  unit_draw u -> bound_ok b ->
  let w := F32.mul (F32.sub (F32.mul (F32.of_Z 2) u) (F32.of_Z 1)) b in
  F32.leb (F32.neg b) w = true /\ F32.leb w b = true.
Proof.
  intros Hu Hb w.
  destruct (unit_draw_below u Hu) as [Hbel Hsign].
  destruct (mul_two_below u Hbel Hsign) as [H2 Hsign2].
  pose proof (sub_one_below _ H2 Hsign2) as Ht.
  destruct Hb as [->|(mb & eb & -> & Hbb)].
  - subst w.
    destruct Ht as [[s ->]|(s & m & e & -> & _ & _)]; split; reflexivity.
  - apply below_leb. subst w. now apply mul_below.
Qed.



(** * The Xavier bound is a finite number that is not negative *)

Lemma F64_prec_pos : 0 < F64.prec. Proof. reflexivity. Qed.
Lemma F64_emax_ge : 2 <= F64.emax. Proof. unfold F64.emax. lia. Qed.



Lemma of_Z_at_least_one (n : nat) :
  (1 <= n)%nat -> at_least_one (F32.of_Z (Z.of_nat n)).
Proof.
  intros Hn. unfold F32.of_Z.
  destruct (Z.of_nat n) as [|p|p] eqn:Hp; try lia. cbn [binary_normalize].
  pose proof (Zdigits2_pos (Zpos p) ltac:(lia)) as Hd.
  destruct (binary_round_cases F32.prec F32.emax F32_prec_pos F32_emax_ge false p 0)
    as [[_ Hz]|[(m' & e' & -> & _ & Hmag)|[-> _]]].
  - unfold emin, F32.prec, F32.emax in Hz. lia.
  - right. exists m', e'. split; [reflexivity|]. lia.
  - now left.
Qed.

Lemma add_at_least_one (a b : spec_float) :
  at_least_one a -> at_least_one b -> at_least_one (F32.add a b).
Proof.
  intros [->|(ma & ea & -> & Ha)] [->|(mb & eb & -> & Hb)];
    try (left; reflexivity).
  change (F32.add (S754_finite false ma ea) (S754_finite false mb eb))
    with (binary_normalize F32.prec F32.emax
            (Zpos (fst (shl_align ma ea (Z.min ea eb)))
             + Zpos (fst (shl_align mb eb (Z.min ea eb))))
            (Z.min ea eb) false).
  destruct (shl_align_spec ma ea (Z.min ea eb)) as [_ HMa].
  set (ez := Z.min ea eb) in *.
  rewrite (Z.min_r ea ez) in HMa by (subst ez; lia).
  set (Ma := fst (shl_align ma ea ez)) in *.
  set (Mb := fst (shl_align mb eb ez)) in *.
  change (Zpos Ma + Zpos Mb) with (Zpos (Ma + Mb)). cbn [binary_normalize].
  assert (HD : 1 <= Zdigits2 (Zpos (Ma + Mb)) + ez).
  { assert (Zdigits2 (Zpos Ma) <= Zdigits2 (Zpos (Ma + Mb)))
      by (apply Zdigits2_mono; lia).
    assert (Zdigits2 (Zpos Ma) = Zdigits2 (Zpos ma) + (ea - ez)).
    { rewrite HMa. apply Zdigits2_mul_pow2; subst ez; lia. }
    lia. }
  destruct (binary_round_cases F32.prec F32.emax F32_prec_pos F32_emax_ge
              false (Ma + Mb) ez)
    as [[_ Hz]|[(m' & e' & -> & _ & Hmag)|[-> _]]].
  - unfold emin, F32.prec, F32.emax in Hz. lia.
  - right. exists m', e'. split; [reflexivity|]. lia.
  - now left.
Qed.

Lemma six_div_at_most (c : spec_float) :
  at_least_one c -> at_most 4 (F32.div (F32.of_Z 6) c).
Proof.
  intros [->|(mc & ec & -> & Hc)]; [left; reflexivity|].
  change (F32.div (F32.of_Z 6) (S754_finite false mc ec))
    with (let '(mz, ez, lz) :=
            SFdiv_core_binary F32.prec F32.emax (Zpos 12582912) (-21) (Zpos mc) ec in
          binary_round_aux F32.prec F32.emax false mz ez lz).
  pose proof (SFdiv_core_binary_spec F32.prec F32.emax (Zpos 12582912) (-21)
                (Zpos mc) ec ltac:(lia) ltac:(lia)) as Hcore.
  destruct (SFdiv_core_binary F32.prec F32.emax (Zpos 12582912) (-21) (Zpos mc) ec)
    as [[q e'] l].
  cbv zeta in Hcore. destruct Hcore as (Hq & Hmag & He').
  change (Zdigits2 (Zpos 12582912)) with 24 in *.
  unfold fexp, emin, F32.prec, F32.emax in He'.
  destruct (binary_round_aux_finite F32.prec F32.emax F32_prec_pos F32_emax_ge
              false q e' l Hq)
    as [->|(m' & e2 & -> & Hm')].
  - unfold emin, F32.prec, F32.emax. lia.
  - unfold F32.prec, F32.emax. lia.
  - now left.
  - right. exists m', e2. split; [reflexivity|].
    unfold emin, F32.prec, F32.emax in Hm'. lia.
Qed.

Lemma float64_of_float32_at_most (y : spec_float) :
  at_most 4 y -> at_most 5 (float64_of_float32 y).
Proof.
  intros [->|(m & e & -> & Hy)]; [left; reflexivity|].
  cbn [float64_of_float32 cond_Zopp binary_normalize].
  destruct (binary_round_cases F64.prec F64.emax F64_prec_pos F64_emax_ge false m e)
    as [[-> _]|[(m' & e' & -> & _ & Hmag)|[_ Hover]]].
  - now left.
  - right. exists m', e'. split; [reflexivity|].
    unfold emin, F64.prec, F64.emax in Hmag. lia.
  - unfold emin, F64.prec, F64.emax in Hover. lia.
Qed.

Lemma sqrt64_at_most (z : spec_float) :
  at_most 5 z -> at_most 4 (F64.sqrt z).
Proof.
  intros [->|(m & e & -> & Hz)]; [left; reflexivity|].
  change (F64.sqrt (S754_finite false m e))
    with (let '(mz, ez, lz) := SFsqrt_core_binary F64.prec F64.emax (Zpos m) e in
          binary_round_aux F64.prec F64.emax false mz ez lz).
  pose proof (SFsqrt_core_binary_spec F64.prec F64.emax (Zpos m) e ltac:(lia))
    as Hcore.
  destruct (SFsqrt_core_binary F64.prec F64.emax (Zpos m) e) as [[q e'] l].
  destruct Hcore as (Hq & Hmag & He').
  assert (Hdiv2 : Z.div2 (Zdigits2 (Zpos m) + e + 1) <= 3).
  { rewrite Z.div2_div. apply Z.div_le_upper_bound; lia. }
  unfold fexp, emin, F64.prec, F64.emax in He'.
  destruct (binary_round_aux_finite F64.prec F64.emax F64_prec_pos F64_emax_ge
              false q e' l Hq)
    as [->|(m' & e2 & -> & Hm')].
  - unfold emin, F64.prec, F64.emax. lia.
  - unfold F64.prec, F64.emax. lia.
  - now left.
  - right. exists m', e2. split; [reflexivity|].
    unfold emin, F64.prec, F64.emax in Hm'. lia.
Qed.

Lemma float32_of_float64_bound_ok (z : spec_float) :
  at_most 4 z -> bound_ok (float32_of_float64 z).
Proof.
  intros [->|(m & e & -> & Hz)]; [left; reflexivity|].
  cbn [float32_of_float64 cond_Zopp binary_normalize].
  destruct (binary_round_cases F32.prec F32.emax F32_prec_pos F32_emax_ge false m e)
    as [[-> _]|[(m' & e' & -> & Hb & _)|[_ Hover]]].
  - now left.
  - right. exists m', e'. auto.
  - unfold emin, F32.prec, F32.emax in Hover. lia.
Qed.

(** The bound of a layer with at least one row and one column. *)
Lemma xavier_bound_ok (fanIn fanOut : nat) :
  (1 <= fanIn)%nat -> (1 <= fanOut)%nat -> bound_ok (xavier fanIn fanOut).
Proof.
  intros Hin Hout. unfold xavier, sqrt.
  apply float32_of_float64_bound_ok, sqrt64_at_most, float64_of_float32_at_most,
    six_div_at_most, add_at_least_one; now apply of_Z_at_least_one.
Qed.
(* ------------------------------------------------------------------ *)
(** * Model.Shape and the empty model *)

Local Open Scope nat_scope.

Lemma index_lookup {A} (xs : list A) (i : nat) (x : A) :
  xs !! i = Some x -> index xs i = Ok x.
Proof. unfold index. now intros ->. Qed.

Lemma index_nil {A} (i : nat) :
  index (@nil A) i = Panicked (IndexOutOfRange i 0).
Proof. reflexivity. Qed.

Lemma dense_at_Shape (p fanIn fanOut : nat) :
  DenseLayer_Shape (dense_at p (S fanIn) fanOut) = Ok (S fanIn, fanOut).
Proof.
  unfold DenseLayer_Shape, dense_at. cbn [seq map index lookup].
  cbn. now rewrite length_map, length_seq.
Qed.

(** C6. With at least one layer, [Model.Shape] pairs the first layer's
    fanIn with the last layer's fanOut; layers of shapes (3,4) and (4,2)
    give (3,2); with no layer the index expression panics. *)
Theorem Model_Shape_first_last :
  (forall (m : Model) (first lst : Layer) (s0 o0 i1 s1 : nat),
      Layers m !! 0%nat = Some first ->
      last (Layers m) = Some lst ->
      Layer_Shape first = Ok (s0, o0) ->
      Layer_Shape lst = Ok (i1, s1) ->
      Model_Shape m = Ok (s0, s1)) /\
  (forall (p q : nat) (bs : Slice) (acts : list activFn),
      Model_Shape (mkModel [Dense (dense_at p 3 4); Dense (dense_at q 4 2)]
                     bs acts) = Ok (3%nat, 2%nat)) /\
  (forall m : Model,
      Layers m = [] -> Model_Shape m = Panicked (IndexOutOfRange 0 0)).
Proof.
  split; [|split].
  - intros m first lst s0 o0 i1 s1 Hfirst Hlast Hs0 Hs1.
    unfold Model_Shape.
    rewrite (index_lookup _ _ _ Hfirst), Hs0.
    rewrite last_lookup in Hlast.
    replace (length (Layers m) - 1)%nat with (pred (length (Layers m))) by lia.
    now rewrite (index_lookup _ _ _ Hlast), Hs1.
  - intros p q bs acts. reflexivity.
  - intros m Hnil. unfold Model_Shape. now rewrite Hnil.
Qed.

(** C10. [Model.Forward] on a model without layers panics on its first
    statement, [m.Layers[0]], whatever the two buffers are. *)
Theorem Model_Forward_empty_panics (m : Model) (in_ out : Slice) (h : Heap) :
  Layers m = [] ->
  Model_Forward m in_ out h = Panicked (IndexOutOfRange 0 0).
Proof.
  intros Hnil. unfold Model_Forward. rewrite Hnil. cbn. now rewrite Hnil.
Qed.
(* ------------------------------------------------------------------ *)
(** * Memory and sequencing lemmas *)

Lemma load_store_eq (a : nat) (v : float32) (h : Heap) :
  load (store a v h) a = v.
Proof. unfold load, store. cbn. now rewrite lookup_insert_eq. Qed.

Lemma load_store_ne (a b : nat) (v : float32) (h : Heap) :
  a <> b -> load (store a v h) b = load h b.
Proof. intros Hne. unfold load, store. cbn. now rewrite lookup_insert_ne. Qed.


Lemma bind_Ok {A B} (c : M A) (k : A -> M B) (h h1 : Heap) (a : A) :
  c h = Ok (a, h1) -> bind c k h = k a h1.
Proof. unfold bind. now intros ->. Qed.

Lemma bind_Panicked {A B} (c : M A) (k : A -> M B) (h : Heap) (p : Panic) :
  c h = Panicked p -> bind c k h = Panicked p.
Proof. unfold bind. now intros ->. Qed.

Lemma bind_inv_Ok {A B} (c : M A) (k : A -> M B) (h h2 : Heap) (b : B) :
  bind c k h = Ok (b, h2) ->
  exists a h1, c h = Ok (a, h1) /\ k a h1 = Ok (b, h2).
Proof.
  unfold bind. destruct (c h) as [[a h1]|p]; [|discriminate].
  intros Hk. now exists a, h1.
Qed.

Lemma lift_Ok {A} (r : Result A) (a : A) (h : Heap) :
  r = Ok a -> lift r h = Ok (a, h).
Proof. now intros ->. Qed.

Lemma slice_get_Ok (s : Slice) (i : nat) (h : Heap) :
  (i < len s)%nat -> slice_get s i h = Ok (at_ h s i, h).
Proof.
  intros Hi. unfold slice_get.
  destruct (Nat.ltb_spec i (len s)); [reflexivity | lia].
Qed.

Lemma slice_set_Ok (s : Slice) (i : nat) (v : float32) (h : Heap) :
  (i < len s)%nat -> slice_set s i v h = Ok (tt, store (ptr s + i)%nat v h).
Proof.
  intros Hi. unfold slice_set.
  destruct (Nat.ltb_spec i (len s)); [reflexivity | lia].
Qed.

Lemma forM__cons {A} (x : A) (xs : list A) (body : A -> M unit) (h h1 : Heap) :
  body x h = Ok (tt, h1) -> forM_ (x :: xs) body h = forM_ xs body h1.
Proof. intros Hx. cbn [forM_]. now rewrite (bind_Ok _ _ _ _ _ Hx). Qed.

(** A loop [for j := range s { s[j] = f(j) }] over the cells [from ..
    from+k) of [s], when [f j] is read from the memory before the loop:
    the cells hold [f j] afterwards and nothing else changes. *)
Lemma forM__pointwise (s : Slice) (body : nat -> M unit)
    (f : Heap -> nat -> float32) :
  (forall h j, (j < len s)%nat ->
     body j h = Ok (tt, store (ptr s + j)%nat (f h j) h)) ->
  (forall h j i v, (i < len s)%nat -> (j < len s)%nat -> i <> j ->
     f (store (ptr s + i)%nat v h) j = f h j) ->
  forall (k from : nat) (h : Heap),
    (from + k <= len s)%nat ->
    exists h',
      forM_ (seq from k) body h = Ok (tt, h') /\
      (forall j, (from <= j < from + k)%nat -> at_ h' s j = f h j) /\
      (forall a, (forall j, (from <= j < from + k)%nat -> a <> (ptr s + j)%nat) ->
                 load h' a = load h a).
Proof.
  intros Hbody Hf. induction k as [|k IH]; intros from h Hle.
  - exists h. split; [reflexivity|]. split; [intros j Hj; lia | auto].
  - cbn [seq].
    rewrite (forM__cons _ _ _ _ _ (Hbody h from ltac:(lia))).
    destruct (IH (S from) (store (ptr s + from)%nat (f h from) h) ltac:(lia))
      as (h' & Hrun & Hin & Hout).
    exists h'. split; [exact Hrun|]. split.
    + intros j Hj. destruct (Nat.eq_dec j from) as [->|Hne].
      * unfold at_. rewrite Hout.
        -- apply load_store_eq.
        -- intros j Hj'. lia.
      * rewrite Hin by lia. apply Hf; lia.
    + intros a Ha. rewrite Hout.
      * apply load_store_ne. intros Heq. apply (Ha from); [lia | now symmetry].
      * intros j Hj. apply Ha. lia.
Qed.
(* ------------------------------------------------------------------ *)
(** * DenseLayer.Forward *)

Lemma fold_left_ext_in {A B} (f g : A -> B -> A) (xs : list B) (a : A) :
  (forall acc x, In x xs -> f acc x = g acc x) ->
  fold_left f xs a = fold_left g xs a.
Proof.
  revert a. induction xs as [|x xs IH]; intros a Hfg; [reflexivity|].
  cbn. rewrite Hfg by now left. apply IH. intros acc y Hy. apply Hfg. now right.
Qed.

Lemma DenseLayer_Shape_inv (l : DenseLayer) (fanIn fanOut : nat) :
  DenseLayer_Shape l = Ok (fanIn, fanOut) ->
  exists row0, l !! 0%nat = Some row0 /\ length l = fanIn /\ len row0 = fanOut.
Proof.
  unfold DenseLayer_Shape, index.
  destruct (l !! 0%nat) as [row0|]; [|discriminate].
  intros [= <- <-]. now exists row0.
Qed.

Lemma rectangular_lookup (l : DenseLayer) (fanOut i : nat) (row : Slice) :
  rectangular l fanOut -> l !! i = Some row -> len row = fanOut.
Proof.
  intros Hrect Hrow. exact (Forall_lookup_1 _ _ _ _ Hrect Hrow).
Qed.

Lemma separate_lookup (l : DenseLayer) (out : Slice) (i : nat) (row : Slice) :
  Forall (separate out) l -> l !! i = Some row -> separate out row.
Proof.
  intros Hsep Hrow. exact (Forall_lookup_1 _ _ _ _ Hsep Hrow).
Qed.

(** The inner loop, [for j := range out { out[j] += l[i][j] * x }]. *)
Lemma Forward_row (l : DenseLayer) (out row : Slice) (i : nat) (x : float32)
    (h : Heap) :
  l !! i = Some row -> len row = len out -> separate out row ->
  exists h',
    range (len out) (fun j =>
      row <- lift (index l i) ;;
      w <- slice_get row j ;;
      o <- slice_get out j ;;
      slice_set out j (F32.add o (F32.mul w x))) h = Ok (tt, h') /\
    (forall j, (j < len out)%nat ->
       at_ h' out j = F32.add (at_ h out j) (F32.mul (at_ h row j) x)) /\
    (forall a, outside out a -> load h' a = load h a).
Proof.
  intros Hrow Hlen Hsep.
  destruct (forM__pointwise out
              (fun j => row <- lift (index l i) ;;
                        w <- slice_get row j ;;
                        o <- slice_get out j ;;
                        slice_set out j (F32.add o (F32.mul w x)))
              (fun h j => F32.add (at_ h out j) (F32.mul (at_ h row j) x)))
    with (k := len out) (from := 0%nat) (h := h)
    as (h' & Hrun & Hin & Hout).
  - intros h0 j Hj.
    rewrite (bind_Ok _ _ _ _ _ (lift_Ok _ _ h0 (index_lookup _ _ _ Hrow))).
    rewrite (bind_Ok _ _ _ _ _ (slice_get_Ok row j h0 ltac:(lia))).
    rewrite (bind_Ok _ _ _ _ _ (slice_get_Ok out j h0 Hj)).
    now apply slice_set_Ok.
  - intros h0 j i0 v Hi0 Hj Hne. unfold at_.
    rewrite !load_store_ne; [reflexivity | |].
    + destruct Hsep; lia.
    + lia.
  - lia.
  - exists h'. split; [exact Hrun|]. split.
    + intros j Hj. apply Hin. lia.
    + intros a Ha. apply Hout. intros j Hj. destruct Ha; lia.
Qed.

(** The loop nest from row [from] on. *)
Lemma Forward_rows (l : DenseLayer) (in_ out : Slice) :
  len in_ = length l ->
  rectangular l (len out) ->
  separate out in_ -> Forall (separate out) l ->
  forall (k from : nat) (h : Heap),
    (from + k <= len in_)%nat ->
    exists h',
      forM_ (seq from k) (fun i =>
        x <- slice_get in_ i ;;
        range (len out) (fun j =>
          row <- lift (index l i) ;;
          w <- slice_get row j ;;
          o <- slice_get out j ;;
          slice_set out j (F32.add o (F32.mul w x)))) h = Ok (tt, h') /\
      (forall j, (j < len out)%nat ->
         at_ h' out j =
         fold_left (fun acc i => F32.add acc (F32.mul (weight h l i j) (at_ h in_ i)))
           (seq from k) (at_ h out j)) /\
      (forall a, outside out a -> load h' a = load h a).
Proof.
  intros Hin Hrect Hsep_in Hsep_l.
  induction k as [|k IH]; intros from h Hle.
  - exists h. split; [reflexivity|]. split; [reflexivity | auto].
  - assert (Hlt : (from < length l)%nat) by lia.
    destruct (lookup_lt_is_Some_2 l from Hlt) as [row Hrow].
    pose proof (rectangular_lookup _ _ _ _ Hrect Hrow) as Hlen.
    pose proof (separate_lookup _ _ _ _ Hsep_l Hrow) as Hsep.
    destruct (Forward_row l out row from (at_ h in_ from) h Hrow Hlen Hsep)
      as (h1 & Hrun1 & Hin1 & Hout1).
    destruct (IH (S from) h1 ltac:(lia)) as (h' & Hrun & Hin' & Hout').
    exists h'. split; [|split].
    + cbn [seq]. erewrite forM__cons; [exact Hrun|].
      rewrite (bind_Ok _ _ _ _ _ (slice_get_Ok in_ from h ltac:(lia))).
      exact Hrun1.
    + intros j Hj. rewrite (Hin' j Hj). cbn [seq fold_left].
      rewrite (Hin1 j Hj).
      replace (weight h l from j) with (at_ h row j)
        by (unfold weight; now rewrite Hrow).
      apply fold_left_ext_in. intros acc i Hi. apply in_seq in Hi.
      f_equal. f_equal.
      * unfold weight.
        destruct (lookup_lt_is_Some_2 l i ltac:(lia)) as [rowi Hrowi].
        rewrite Hrowi. unfold at_. apply Hout1.
        pose proof (rectangular_lookup _ _ _ _ Hrect Hrowi).
        pose proof (separate_lookup _ _ _ _ Hsep_l Hrowi) as Hs.
        unfold outside. destruct Hs; lia.
      * unfold at_. apply Hout1. unfold outside. destruct Hsep_in; lia.
    + intros a Ha. rewrite (Hout' a Ha). now apply Hout1.
Qed.

Lemma forM__total {A} (xs : list A) (body : A -> M unit) :
  (forall x h, In x xs -> exists h', body x h = Ok (tt, h')) ->
  forall h, exists h', forM_ xs body h = Ok (tt, h').
Proof.
  induction xs as [|x xs IH]; intros Hbody h.
  - now exists h.
  - destruct (Hbody x h (or_introl eq_refl)) as [h1 Hx].
    rewrite (forM__cons _ _ _ _ _ Hx).
    apply IH. intros y h0 Hy. apply Hbody. now right.
Qed.

(** ** The two messages *)

Lemma append_cancel_l (p s t : string) :
  (p ++ s)%string = (p ++ t)%string -> s = t.
Proof. induction p as [|c p IH]; cbn; [auto | intros [= H]; auto]. Qed.

Lemma length_append (s t : string) :
  String.length (s ++ t) = (String.length s + String.length t)%nat.
Proof. induction s as [|c s IH]; simpl; [reflexivity | now f_equal]. Qed.

Lemma append_cancel_r (s1 s2 t : string) :
  (s1 ++ t)%string = (s2 ++ t)%string -> s1 = s2.
Proof.
  revert s2. induction s1 as [|c s1 IH]; intros [|c2 s2] H; simpl in H.
  - reflexivity.
  - apply (f_equal String.length) in H. rewrite ?length_append in H. simpl in H.
    rewrite ?length_append in H. lia.
  - apply (f_equal String.length) in H. rewrite ?length_append in H. simpl in H.
    rewrite ?length_append in H. lia.
  - injection H as -> H. f_equal. now apply IH.
Qed.

Lemma to_int_of_nat (n : nat) :
  exists d, Z.to_int (Z.of_nat n) = Decimal.Pos d /\ d <> Decimal.Nil.
Proof.
  destruct n as [|n]; cbn.
  - exists Decimal.zero. split; [reflexivity | discriminate].
  - eexists. split; [reflexivity|].
    apply DecimalPos.Unsigned.to_uint_nonnil.
Qed.

Lemma FormatInt_inj (n k : nat) : FormatInt n = FormatInt k -> n = k.
Proof.
  unfold FormatInt. intros H.
  apply Nat2Z.inj, DecimalZ.to_int_inj.
  destruct (to_int_of_nat n) as (d & Hd & Hnil).
  destruct (to_int_of_nat k) as (d' & Hd' & Hnil').
  rewrite Hd, Hd' in *.
  assert (Hi : NilZero.int_of_string (NilZero.string_of_int (Decimal.Pos d))
               = Some (Decimal.Pos d)) by (apply NilZero.isi; congruence).
  assert (Hi' : NilZero.int_of_string (NilZero.string_of_int (Decimal.Pos d'))
               = Some (Decimal.Pos d')) by (apply NilZero.isi; congruence).
  rewrite H in Hi. congruence.
Qed.

Lemma FormatInt_head (n : nat) :
  exists c s, FormatInt n = String c s /\ c <> "_"%char.
Proof.
  unfold FormatInt.
  destruct (to_int_of_nat n) as (d & -> & Hnil).
  destruct d; try congruence; cbn; eexists _, _; (split; [reflexivity | discriminate]).
Qed.

Lemma shape_mismatch_sides (n k : nat) :
  shape_mismatch_in n <> shape_mismatch_out k.
Proof.
  unfold shape_mismatch_in, shape_mismatch_out. intros [= H].
  destruct (FormatInt_head n) as (c & s & Hs & Hc).
  rewrite Hs in H. change ((String c s ++ ", _)")%string =
    String "_" (", " ++ FormatInt k ++ ")")%string) in H.
  change (String c (s ++ ", _)")%string =
    String "_" (", " ++ FormatInt k ++ ")")%string) in H.
  congruence.
Qed.

Lemma shape_mismatch_in_inj (n k : nat) :
  shape_mismatch_in n = shape_mismatch_in k -> n = k.
Proof.
  unfold shape_mismatch_in. intros [= H].
  apply FormatInt_inj. eapply append_cancel_r. exact H.
Qed.

Lemma shape_mismatch_out_inj (n k : nat) :
  shape_mismatch_out n = shape_mismatch_out k -> n = k.
Proof.
  unfold shape_mismatch_out. intros [= H].
  apply FormatInt_inj. eapply append_cancel_r. exact H.
Qed.

(** The loop nest never panics once both checks have passed, whatever the
    buffers share. *)
Lemma Forward_rows_total (l : DenseLayer) (in_ out : Slice) (h : Heap) :
  len in_ = length l ->
  rectangular l (len out) ->
  exists h',
    range (len in_) (fun i =>
      x <- slice_get in_ i ;;
      range (len out) (fun j =>
        row <- lift (index l i) ;;
        w <- slice_get row j ;;
        o <- slice_get out j ;;
        slice_set out j (F32.add o (F32.mul w x)))) h = Ok (tt, h').
Proof.
  intros Hin Hrect. apply forM__total. intros i h0 Hi. apply in_seq in Hi.
  rewrite (bind_Ok _ _ _ _ _ (slice_get_Ok in_ i h0 ltac:(lia))).
  destruct (lookup_lt_is_Some_2 l i ltac:(lia)) as [row Hrow].
  pose proof (rectangular_lookup _ _ _ _ Hrect Hrow) as Hlen.
  apply forM__total. intros j h1 Hj. apply in_seq in Hj.
  rewrite (bind_Ok _ _ _ _ _ (lift_Ok _ _ h1 (index_lookup _ _ _ Hrow))).
  rewrite (bind_Ok _ _ _ _ _ (slice_get_Ok row j h1 ltac:(lia))).
  rewrite (bind_Ok _ _ _ _ _ (slice_get_Ok out j h1 ltac:(lia))).
  rewrite (slice_set_Ok out j _ h1 ltac:(lia)). eauto.
Qed.

Lemma DenseLayer_Forward_checks_pass (l : DenseLayer) (in_ out : Slice)
    (row0 : Slice) (h : Heap) :
  l !! 0%nat = Some row0 -> len in_ = length l -> len out = len row0 ->
  DenseLayer_Forward l in_ out h =
  bind (range (len in_) (fun i =>
          x <- slice_get in_ i ;;
          range (len out) (fun j =>
            row <- lift (index l i) ;;
            w <- slice_get row j ;;
            o <- slice_get out j ;;
            slice_set out j (F32.add o (F32.mul w x)))))
       (fun _ => ret out) h.
Proof.
  intros Hrow0 Hin Hout. unfold DenseLayer_Forward.
  rewrite Hin, Nat.eqb_refl. cbn [negb].
  rewrite (bind_Ok _ _ _ _ _ (lift_Ok _ _ h (index_lookup _ _ _ Hrow0))).
  rewrite Hout, Nat.eqb_refl. reflexivity.
Qed.

Lemma DenseLayer_Forward_total (l : DenseLayer) (in_ out : Slice) (h : Heap)
    (fanIn fanOut : nat) :
  DenseLayer_Shape l = Ok (fanIn, fanOut) -> rectangular l fanOut ->
  len in_ = fanIn -> len out = fanOut ->
  exists h', DenseLayer_Forward l in_ out h = Ok (out, h').
Proof.
  intros Hshape Hrect Hin Hout.
  destruct (DenseLayer_Shape_inv _ _ _ Hshape) as (row0 & Hrow0 & Hlen & Hlen0).
  rewrite (DenseLayer_Forward_checks_pass l in_ out row0 h Hrow0) by congruence.
  destruct (Forward_rows_total l in_ out h) as [h' Hrun]; [congruence | |].
  - now rewrite Hout.
  - exists h'. now rewrite (bind_Ok _ _ _ _ _ Hrun).
Qed.

(** C2. When the output buffer overlaps neither the input nor a row of
    the layer, [DenseLayer.Forward] adds the weighted sum onto what the
    output buffer already holds, leaves every other cell alone and returns
    the buffer it was given; the identity layer on input [5, 7] and an output
    buffer holding [1, 1] leaves [6, 8]. *)
Theorem DenseLayer_Forward_accumulates :
  (forall (l : DenseLayer) (in_ out : Slice) (h : Heap) (fanIn fanOut : nat),
      DenseLayer_Shape l = Ok (fanIn, fanOut) ->
      rectangular l fanOut ->
      len in_ = fanIn -> len out = fanOut ->
      separate out in_ -> Forall (separate out) l ->
      exists h',
        DenseLayer_Forward l in_ out h = Ok (out, h') /\
        (forall j, (j < fanOut)%nat ->
           at_ h' out j = accumulate h l in_ j fanIn (at_ h out j)) /\
        (forall a, outside out a -> load h' a = load h a)) /\
  (exists h',
      DenseLayer_Forward [mkSlice 0 2 2; mkSlice 2 2 2]
        (mkSlice 4 2 2) (mkSlice 6 2 2)
        (heap_of [fl 1; fl 0; fl 0; fl 1; fl 5; fl 7; fl 1; fl 1])
      = Ok (mkSlice 6 2 2, h') /\
      read h' (mkSlice 6 2 2) = [fl 6; fl 8]).
Proof.
  split.
  - intros l in_ out h fanIn fanOut Hshape Hrect Hin Hout Hsep_in Hsep_l.
    destruct (DenseLayer_Shape_inv _ _ _ Hshape) as (row0 & Hrow0 & Hlen & Hlen0).
    rewrite (DenseLayer_Forward_checks_pass l in_ out row0 h Hrow0) by congruence.
    rewrite <- Hout in Hrect.
    assert (Hin' : len in_ = length l) by congruence.
    destruct (Forward_rows l in_ out Hin' Hrect Hsep_in Hsep_l (len in_) 0%nat h
                ltac:(lia)) as (h' & Hrun & Hacc & Hframe).
    exists h'. split; [|split].
    + unfold range. now rewrite (bind_Ok _ _ _ _ _ Hrun).
    + intros j Hj. unfold accumulate. rewrite <- Hin. apply Hacc. lia.
    + exact Hframe.
  - eexists. split; vm_compute; reflexivity.
Qed.

(** C3. On a layer of shape (fanIn, fanOut), [DenseLayer.Forward] panics
    exactly when the input length differs from fanIn or the output length
    differs from fanOut.  The message names the side and carries the
    offending length: the two messages never coincide and each determines
    its length. *)
Theorem DenseLayer_Forward_shape_check
    (l : DenseLayer) (in_ out : Slice) (h : Heap) (fanIn fanOut : nat) :
  DenseLayer_Shape l = Ok (fanIn, fanOut) ->
  rectangular l fanOut ->
  (is_panic (DenseLayer_Forward l in_ out h) <->
     len in_ <> fanIn \/ len out <> fanOut) /\
  (len in_ <> fanIn ->
     DenseLayer_Forward l in_ out h = Panicked (shape_mismatch_in (len in_))) /\
  (len in_ = fanIn -> len out <> fanOut ->
     DenseLayer_Forward l in_ out h = Panicked (shape_mismatch_out (len out))) /\
  (len in_ = fanIn -> len out = fanOut ->
     exists h', DenseLayer_Forward l in_ out h = Ok (out, h')) /\
  (forall n k, shape_mismatch_in n <> shape_mismatch_out k) /\
  (forall n k, shape_mismatch_in n = shape_mismatch_in k -> n = k) /\
  (forall n k, shape_mismatch_out n = shape_mismatch_out k -> n = k).
Proof.
  intros Hshape Hrect.
  destruct (DenseLayer_Shape_inv _ _ _ Hshape) as (row0 & Hrow0 & Hlen & Hlen0).
  assert (Hbad_in : len in_ <> fanIn ->
     DenseLayer_Forward l in_ out h = Panicked (shape_mismatch_in (len in_))).
  { intros Hne. unfold DenseLayer_Forward.
    destruct (Nat.eqb_spec (len in_) (length l)); [congruence | reflexivity]. }
  assert (Hbad_out : len in_ = fanIn -> len out <> fanOut ->
     DenseLayer_Forward l in_ out h = Panicked (shape_mismatch_out (len out))).
  { intros Heq Hne. unfold DenseLayer_Forward.
    destruct (Nat.eqb_spec (len in_) (length l)); [|congruence]. cbn [negb].
    rewrite (bind_Ok _ _ _ _ _ (lift_Ok _ _ h (index_lookup _ _ _ Hrow0))).
    destruct (Nat.eqb_spec (len out) (len row0)); [congruence | reflexivity]. }
  assert (Hgood : len in_ = fanIn -> len out = fanOut ->
     exists h', DenseLayer_Forward l in_ out h = Ok (out, h')).
  { intros Hin Hout. now apply (DenseLayer_Forward_total l in_ out h fanIn fanOut). }
  split; [|split; [|split; [|split; [|split; [|split]]]]]; auto.
  - split.
    + intros Hp.
      destruct (Nat.eq_dec (len in_) fanIn) as [Hin|Hin]; [|now left].
      destruct (Nat.eq_dec (len out) fanOut) as [Hout|Hout]; [|now right].
      destruct (Hgood Hin Hout) as [h' Hok]. rewrite Hok in Hp. destruct Hp.
    + intros Hne.
      destruct (Nat.eq_dec (len in_) fanIn) as [Hin|Hin].
      * destruct Hne as [Hne|Hne]; [contradiction|].
        now rewrite (Hbad_out Hin Hne).
      * now rewrite (Hbad_in Hin).
  - exact shape_mismatch_sides.
  - exact shape_mismatch_in_inj.
  - exact shape_mismatch_out_inj.
Qed.
(* ------------------------------------------------------------------ *)
(** * Model.Forward *)

(** C1, at a two-layer model.  After the first turn the buffers change
    roles, so the second layer accumulates onto the cells that still hold
    the caller's input: the run returns [10] where the chained stages of the
    specification give [5]. *)
Theorem Model_Forward_two_layers_stale_input :
  outcome (Model_Forward two_layer_model (mkSlice 4 1 1) (mkSlice 5 1 1)
             two_layer_heap) = Ok [fl 10] /\
  Forward_spec two_layer_heap (Layers two_layer_model)
    (read two_layer_heap (Biases two_layer_model))
    (ActivFn two_layer_model) (read two_layer_heap (mkSlice 4 1 1)) = [fl 5] /\
  read two_layer_heap (mkSlice 5 1 1) = [F32.zero] /\
  fl 10 <> fl 5.
Proof.
  split; [|split; [|split]]; try (vm_compute; reflexivity).
  vm_compute. discriminate.
Qed.
(* ------------------------------------------------------------------ *)
(** * Allocation, append and Model.AddLayer *)

Lemma load_fold_store (g : nat -> float32) (dst : nat) (h : Heap) :
  forall (n s x : nat),
    load (fold_right (fun k h' => store (dst + k)%nat (g k) h') h (seq s n)) x =
    if ((dst + s <=? x) && (x <? dst + s + n))%nat then g (x - dst)%nat
    else load h x.
Proof.
  induction n as [|n IH]; intros s x; cbn [seq fold_right].
  - destruct (Nat.leb_spec (dst + s) x), (Nat.ltb_spec x (dst + s + 0)); cbn;
      try reflexivity; lia.
  - destruct (Nat.eq_dec (dst + s) x) as [<-|Hne].
    + rewrite load_store_eq.
      destruct (Nat.leb_spec (dst + s) (dst + s)),
               (Nat.ltb_spec (dst + s) (dst + s + S n)); cbn; try lia.
      f_equal. lia.
    + rewrite load_store_ne by exact Hne. rewrite IH.
      destruct (Nat.leb_spec (dst + S s) x), (Nat.ltb_spec x (dst + S s + n)),
               (Nat.leb_spec (dst + s) x), (Nat.ltb_spec x (dst + s + S n));
        cbn; try reflexivity; lia.
Qed.

Lemma load_zero_cells (a n : nat) (h : Heap) (x : nat) :
  load (zero_cells a n h) x =
  if ((a <=? x) && (x <? a + n))%nat then F32.zero else load h x.
Proof.
  unfold zero_cells.
  pose proof (load_fold_store (fun _ => F32.zero) 0 h n a x) as H.
  cbn [Nat.add] in H. exact H.
Qed.

Lemma load_copy_cells (src dst n : nat) (h : Heap) (x : nat) :
  load (copy_cells src dst n h) x =
  if ((dst <=? x) && (x <? dst + n))%nat then load h (src + (x - dst))%nat
  else load h x.
Proof.
  unfold copy_cells.
  rewrite (load_fold_store (fun k => load h (src + k)%nat) dst h n 0 x).
  now rewrite !Nat.add_0_r.
Qed.

Lemma make_Ok (n : nat) (h : Heap) :
  make n h = Ok (mkSlice (brk h) n n,
                 zero_cells (brk h) n (mkHeap (cells h) (brk h + n))).
Proof. reflexivity. Qed.


(** [append] never panics; the new cell holds the value, the cells before
    it are those of the old slice when that lies in allocated memory. *)
Lemma append_spec (s : Slice) (v : float32) (h : Heap) :
  exists s' h',
    append s v h = Ok (s', h') /\
    len s' = S (len s) /\
    at_ h' s' (len s) = v /\
    ((ptr s + len s <= brk h)%nat ->
     forall i, (i < len s)%nat -> at_ h' s' i = at_ h s i).
Proof.
  unfold append. destruct (Nat.ltb_spec (len s) (cap s)) as [Hlt|Hge].
  - eexists _, _. split.
    + erewrite bind_Ok; [reflexivity|]. apply slice_set_Ok. cbn. lia.
    + cbn. split; [reflexivity|]. split.
      * unfold at_. cbn. apply load_store_eq.
      * intros _ i Hi. unfold at_. cbn. apply load_store_ne. lia.
  - unfold growslice. eexists _, _. split.
    + unfold bind at 1. rewrite make_Ok. cbn [ptr].
      erewrite bind_Ok; [reflexivity|]. apply slice_set_Ok. cbn. lia.
    + cbn [len ptr]. split; [reflexivity|]. split.
      * unfold at_. cbn [ptr]. apply load_store_eq.
      * intros Hbrk i Hi. unfold at_. cbn [ptr].
        rewrite load_store_ne by lia. rewrite load_copy_cells.
        destruct (Nat.leb_spec (brk h) (brk h + i)),
                 (Nat.ltb_spec (brk h + i) (brk h + len s)); cbn [andb]; try lia.
        rewrite load_zero_cells.
        destruct (Nat.leb_spec (brk h) (ptr s + (brk h + i - brk h)));
          cbn [andb]; [lia|].
        unfold load. cbn [cells]. f_equal. f_equal. lia.
Qed.

Lemma length_snoc {A} (xs : list A) (x : A) : length (xs ++ [x]) = S (length xs).
Proof. rewrite length_app. cbn. lia. Qed.

(** ** What a turn of the forward loop needs and gives *)

Lemma lift_inv_Ok {A} (r : Result A) (a : A) (h h' : Heap) :
  lift r h = Ok (a, h') -> r = Ok a /\ h' = h.
Proof. unfold lift. destruct r; [intros [= -> ->]; auto | discriminate]. Qed.

Lemma reslice_inv_Ok (s s' : Slice) (n : nat) :
  reslice s n = Ok s' -> s' = mkSlice (ptr s) n (cap s) /\ n <= cap s.
Proof.
  unfold reslice. destruct (Nat.leb_spec n (cap s)); [|discriminate].
  intros [= <-]. auto.
Qed.

Lemma reslice_Ok (s : Slice) (n : nat) :
  n <= cap s -> reslice s n = Ok (mkSlice (ptr s) n (cap s)).
Proof. intros H. unfold reslice. destruct (Nat.leb_spec n (cap s)); [reflexivity|lia]. Qed.

Lemma resize_out_len (out o1 : Slice) (n : nat) (h h1 : Heap) :
  resize_out out n h = Ok (o1, h1) -> len o1 = n.
Proof.
  unfold resize_out.
  destruct (Nat.ltb_spec n (len out)) as [Hlt|Hge].
  - intros H. apply lift_inv_Ok in H as [H _].
    apply reslice_inv_Ok in H as [-> _]. reflexivity.
  - destruct (Nat.ltb_spec (len out) n) as [Hlt|Hge'].
    + intros H. apply bind_inv_Ok in H as (s & h0 & _ & H).
      apply lift_inv_Ok in H as [H _].
      apply reslice_inv_Ok in H as [-> _]. reflexivity.
    + intros [= <- _]. lia.
Qed.

Lemma resize_out_total (out : Slice) (n : nat) (h : Heap) :
  Slice_wf out ->
  exists o1 h1, resize_out out n h = Ok (o1, h1) /\ len o1 = n /\ Slice_wf o1.
Proof.
  unfold Slice_wf, resize_out. intros Hwf.
  destruct (Nat.ltb_spec n (len out)) as [Hlt|Hge].
  - rewrite reslice_Ok by lia. eexists _, _. split; [reflexivity|]. cbn. lia.
  - destruct (Nat.ltb_spec (len out) n) as [Hlt|Hge'].
    + unfold slices_Grow.
      destruct (Nat.ltb_spec (cap out - len out) (n - len out)) as [Hgrow|Hfit].
      * rewrite reslice_Ok by lia. unfold bind, lift, growslice. rewrite make_Ok.
        cbn [ptr len cap].
        rewrite reslice_Ok by (cbn; lia). cbn [ptr len cap].
        rewrite reslice_Ok by (cbn; lia).
        eexists _, _. split; [reflexivity|]. cbn. lia.
      * unfold bind, ret. rewrite reslice_Ok by lia.
        eexists _, _. split; [reflexivity|]. cbn. lia.
    + eexists _, _. split; [reflexivity|]. lia.
Qed.

Lemma DenseLayer_Forward_inv_Ok (l : DenseLayer) (in_ out r : Slice) (h h' : Heap) :
  DenseLayer_Forward l in_ out h = Ok (r, h') -> r = out /\ len in_ = length l.
Proof.
  unfold DenseLayer_Forward.
  destruct (Nat.eqb_spec (len in_) (length l)) as [Hin|Hin]; [|discriminate].
  cbn [negb]. intros H.
  apply bind_inv_Ok in H as (row0 & h0 & _ & H).
  destruct (negb (len out =? len row0)); [discriminate|].
  apply bind_inv_Ok in H as (u & h1 & _ & H).
  injection H as <- _. auto.
Qed.

Lemma Forward_stage_inv_Ok (m : Model) (d : DenseLayer) (i : nat)
    (in_ out out' : Slice) (h h' : Heap) :
  Forward_stage m (Dense d) i in_ out h = Ok (out', h') ->
  len in_ = length d /\
  exists fanOut, DenseLayer_Shape d = Ok (length d, fanOut) /\ len out' = fanOut.
Proof.
  unfold Forward_stage. intros H.
  apply bind_inv_Ok in H as (sh & h0 & Hsh & H).
  apply lift_inv_Ok in Hsh as [Hsh ->]. cbn [Layer_Shape] in Hsh.
  apply bind_inv_Ok in H as (o1 & h1 & Hres & H).
  apply resize_out_len in Hres.
  apply bind_inv_Ok in H as (o2 & h2 & Hfw & H).
  cbn [Layer_Forward] in Hfw.
  apply DenseLayer_Forward_inv_Ok in Hfw as [-> Hin].
  apply bind_inv_Ok in H as (b & h3 & _ & H).
  apply bind_inv_Ok in H as (a & h4 & _ & H).
  apply bind_inv_Ok in H as (u & h5 & _ & H).
  injection H as <- _.
  split; [exact Hin|]. exists (snd sh). split; [|exact Hres].
  destruct sh as [p q]. cbn [snd].
  destruct (DenseLayer_Shape_inv _ _ _ Hsh) as (_ & _ & <- & _). exact Hsh.
Qed.

(** A layer whose fanIn differs from the fanOut before it stops the
    forward pass: no run over the pair returns. *)
Lemma Forward_loop_incompatible (m : Model) (d0 d : DenseLayer)
    (rest : list Layer) (q p : nat) :
  DenseLayer_Shape d0 = Ok (p, q) -> length d <> q ->
  forall (T : list Layer) (i : nat) (in_ out : Slice) (h : Heap),
    i + length T + 2 <= length (Layers m) ->
    is_panic (Forward_loop m (T ++ Dense d0 :: Dense d :: rest) i in_ out h).
Proof.
  intros Hd0 Hne. induction T as [|t T IH]; intros i in_ out h Hlen.
  - cbn [app Forward_loop]. unfold bind at 1.
    destruct (Forward_stage m (Dense d0) i in_ out h) as [[o1 h1]|pn] eqn:Hst;
      [|exact I].
    apply Forward_stage_inv_Ok in Hst as (_ & q' & Hsh & Ho1).
    assert (q' = q) by congruence. subst q'.
    destruct (Nat.ltb_spec (S i) (length (Layers m))); [|cbn in Hlen; lia].
    unfold bind at 1.
    destruct (Forward_stage m (Dense d) (S i) o1 in_ h1) as [[o2 h2]|pn] eqn:Hst2;
      [|exact I].
    apply Forward_stage_inv_Ok in Hst2 as (Hin & _). congruence.
  - cbn [app Forward_loop]. unfold bind at 1.
    destruct (Forward_stage m t i in_ out h) as [[o1 h1]|pn]; [|exact I].
    destruct (Nat.ltb_spec (S i) (length (Layers m))); [|cbn in Hlen; lia].
    apply IH. cbn in Hlen. lia.
Qed.

Lemma Forward_stage_total (m : Model) (d : DenseLayer) (i : nat)
    (in_ out : Slice) (h : Heap) (p q : nat) :
  DenseLayer_Shape d = Ok (p, q) -> rectangular d q ->
  len in_ = p -> Slice_wf out ->
  i < len (Biases m) -> i < length (ActivFn m) ->
  exists o1 h1,
    Forward_stage m (Dense d) i in_ out h = Ok (o1, h1) /\
    len o1 = q /\ Slice_wf o1.
Proof.
  intros Hsh Hrect Hin Hwf Hb Ha. unfold Forward_stage.
  rewrite (bind_Ok _ _ _ _ _ (lift_Ok _ _ h Hsh)). cbn [snd].
  destruct (resize_out_total out q h Hwf) as (o1 & h1 & Hres & Hlen & Hwf1).
  rewrite (bind_Ok _ _ _ _ _ Hres). cbn [Layer_Forward].
  destruct (DenseLayer_Forward_total d in_ o1 h1 p q Hsh Hrect Hin Hlen)
    as [h2 Hfw].
  rewrite (bind_Ok _ _ _ _ _ Hfw).
  rewrite (bind_Ok _ _ _ _ _ (slice_get_Ok (Biases m) i h2 Hb)).
  destruct (lookup_lt_is_Some_2 (ActivFn m) i Ha) as [a Hai].
  rewrite (bind_Ok _ _ _ _ _ (lift_Ok _ _ h2 (index_lookup _ _ _ Hai))).
  destruct (forM__total (seq 0 (len o1))
              (fun k => x <- slice_get o1 k ;;
                        slice_set o1 k (Apply a (F32.add x (at_ h2 (Biases m) i))))
              ) with (h := h2) as [h3 Hact].
  { intros k h0 Hk. apply in_seq in Hk.
    rewrite (bind_Ok _ _ _ _ _ (slice_get_Ok o1 k h0 ltac:(lia))).
    rewrite (slice_set_Ok o1 k _ h0 ltac:(lia)). eauto. }
  unfold range. rewrite (bind_Ok _ _ _ _ _ Hact).
  exists o1, h3. auto.
Qed.

Lemma Forward_stage_mismatch (m : Model) (d : DenseLayer) (i : nat)
    (in_ out : Slice) (h : Heap) (c e : nat) :
  DenseLayer_Shape d = Ok (c, e) -> len in_ <> c -> Slice_wf out ->
  Forward_stage m (Dense d) i in_ out h = Panicked (shape_mismatch_in (len in_)).
Proof.
  intros Hsh Hne Hwf. unfold Forward_stage.
  rewrite (bind_Ok _ _ _ _ _ (lift_Ok _ _ h Hsh)). cbn [snd].
  destruct (resize_out_total out e h Hwf) as (o1 & h1 & Hres & Hlen & Hwf1).
  rewrite (bind_Ok _ _ _ _ _ Hres). cbn [Layer_Forward].
  apply bind_Panicked. unfold DenseLayer_Forward.
  destruct (DenseLayer_Shape_inv _ _ _ Hsh) as (row0 & Hrow0 & Hp & Hq).
  destruct (Nat.eqb_spec (len in_) (length d)); [congruence | reflexivity].
Qed.

(** C9. [Model.AddLayer] never panics and checks no shape.  It adds one
    element to each of the three sequences, so equal lengths stay equal; the
    new bias is zero, the activation is the one given, the biases before it
    are kept.  A layer whose fanIn does not continue the model is accepted
    all the same: afterwards no forward pass returns, and on a one-layer
    model the pass stops in the second turn with the input-side shape
    mismatch. *)
Theorem Model_AddLayer_appends :
  (forall (m : Model) (l : Layer) (a : activFn) (h : Heap),
      exists m' h',
        Model_AddLayer m l a h = Ok (m', h') /\
        Layers m' = Layers m ++ [l] /\
        ActivFn m' = ActivFn m ++ [a] /\
        len (Biases m') = S (len (Biases m)) /\
        at_ h' (Biases m') (len (Biases m)) = F32.zero /\
        (length (Layers m) = len (Biases m) ->
         len (Biases m) = length (ActivFn m) ->
         length (Layers m') = len (Biases m') /\
         len (Biases m') = length (ActivFn m')) /\
        (ptr (Biases m) + len (Biases m) <= brk h ->
         forall i, i < len (Biases m) ->
           at_ h' (Biases m') i = at_ h (Biases m) i)) /\
  (forall (m m' : Model) (d0 d : DenseLayer) (a : activFn) (h h' : Heap)
          (p q c e : nat),
      last (Layers m) = Some (Dense d0) ->
      DenseLayer_Shape d0 = Ok (p, q) ->
      DenseLayer_Shape d = Ok (c, e) -> c <> q ->
      Model_AddLayer m (Dense d) a h = Ok (m', h') ->
      (forall in_ out h2, is_panic (Model_Forward m' in_ out h2)) /\
      (Layers m = [Dense d0] -> rectangular d0 q ->
       forall in_ out h2,
         len in_ = p -> Slice_wf in_ -> Slice_wf out ->
         Model_Forward m' in_ out h2 = Panicked (shape_mismatch_in q))).
Proof.
  split.
  - intros m l a h. unfold Model_AddLayer.
    destruct (append_spec (Biases m) F32.zero h)
      as (bs & h' & Happ & Hlen & Hnew & Hold).
    rewrite (bind_Ok _ _ _ _ _ Happ).
    eexists _, h'. split; [reflexivity|]. cbn [Layers Biases ActivFn].
    repeat split; auto.
    + rewrite length_snoc. congruence.
    + rewrite length_snoc. congruence.
  - intros m m' d0 d a h h' p q c e Hlast Hd0 Hd Hne Hadd.
    unfold Model_AddLayer in Hadd.
    apply bind_inv_Ok in Hadd as (bs & h1 & Happ & Hret).
    injection Hret as <- <-.
    destruct (DenseLayer_Shape_inv _ _ _ Hd) as (_ & _ & Hc & _).
    split.
    + intros in_ out h2. unfold Model_Forward. cbn [Layers].
      apply last_Some in Hlast as [T HT]. rewrite HT, <- app_assoc.
      cbn [app].
      apply (Forward_loop_incompatible _ d0 d [] q p Hd0 ltac:(congruence)).
      cbn [Layers]. rewrite !length_app. cbn. lia.
    + intros Hone Hrect in_ out h2 Hin Hwf_in Hwf_out.
      unfold Model_Forward. cbn [Layers]. rewrite Hone.
      cbn [app Forward_loop Layers].
      destruct (append_spec (Biases m) F32.zero h)
        as (bs' & h1' & Happ' & Hlen & _).
      rewrite Happ in Happ'. injection Happ' as <- <-.
      destruct (Forward_stage_total
                  (mkModel (Layers m ++ [Dense d]) bs (ActivFn m ++ [a]))
                  d0 0 in_ out h2 p q Hd0 Hrect Hin Hwf_out)
        as (o1 & h3 & Hst & Hlen1 & Hwf1).
      { cbn [Biases]. lia. }
      { cbn [ActivFn]. rewrite length_app. cbn. lia. }
      rewrite Hone in Hst. cbn [app] in Hst.
      rewrite (bind_Ok _ _ _ _ _ Hst). cbn [length Nat.ltb Nat.leb].
      apply bind_Panicked. rewrite <- Hlen1.
      apply (Forward_stage_mismatch _ d 1 o1 in_ h3 c e Hd); [lia | exact Hwf_in].
Qed.
(* ------------------------------------------------------------------ *)
(** * InitWeights *)

Lemma fills_nil : fills (fun r => ret r) [] (fun r => ([], r)).
Proof. intros r h. exists h. auto. Qed.

Lemma fills_seq (C1 C2 : Rand -> M Rand) (c1 c2 : list nat)
    (D1 D2 : Rand -> list float32 * Rand) :
  fills C1 c1 D1 -> fills C2 c2 D2 ->
  (forall a, In a c1 -> ~ In a c2) ->
  fills (fun r => r1 <- C1 r ;; C2 r1) (c1 ++ c2)
        (fun r => let (v, r1) := D1 r in
                  let (w, r2) := D2 r1 in (v ++ w, r2)).
Proof.
  intros H1 H2 Hdisj r h.
  destruct (H1 r h) as (h1 & Hrun1 & Hval1 & Hfr1).
  destruct (H2 (snd (D1 r)) h1) as (h2 & Hrun2 & Hval2 & Hfr2).
  exists h2. rewrite (bind_Ok _ _ _ _ _ Hrun1), Hrun2.
  destruct (D1 r) as [v r1]. cbn [fst snd] in *.
  destruct (D2 r1) as [w r2]. cbn [fst snd] in *.
  split; [reflexivity|]. split.
  - rewrite map_app, Hval2. f_equal. rewrite <- Hval1.
    apply map_ext_in. intros a Ha. apply Hfr2. now apply Hdisj.
  - intros a Ha. rewrite Hfr2, Hfr1; [reflexivity | |];
      intros Hin; apply Ha, in_or_app; auto.
Qed.

Lemma fills_foldM {A} (body : A -> Rand -> M Rand) (cells_of : A -> list nat)
    (D : A -> Rand -> list float32 * Rand) (xs : list A) :
  (forall x, In x xs -> fills (body x) (cells_of x) (D x)) ->
  NoDup (concat (map cells_of xs)) ->
  fills (foldM xs body) (concat (map cells_of xs)) (draws_fold D xs).
Proof.
  induction xs as [|x xs IH]; intros Hbody Hnd.
  - exact fills_nil.
  - cbn [map concat] in *. apply NoDup_app in Hnd as (Hnd1 & Hdisj & Hnd2).
    apply (fills_seq (body x) (foldM xs body) (cells_of x)
             (concat (map cells_of xs)) (D x) (draws_fold D xs)).
    + apply Hbody. now left.
    + apply IH; [|exact Hnd2]. intros y Hy. apply Hbody. now right.
    + intros a Ha Ha'. apply (Hdisj a); now apply list_elem_of_In.
Qed.

(** One assignment [s[i] = g(r)]. *)
Lemma fills_cell (g : Rand -> float32 * Rand) (s : Slice) (i : nat) :
  i < len s ->
  fills (fun r => let (v, r') := g r in slice_set s i v ;; ret r')
        [ptr s + i] (fun r => let (v, r') := g r in ([v], r')).
Proof.
  intros Hi r h. destruct (g r) as [v r'].
  exists (store (ptr s + i) v h).
  rewrite (bind_Ok _ _ _ _ _ (slice_set_Ok s i v h Hi)). cbn.
  split; [reflexivity|]. split.
  - now rewrite load_store_eq.
  - intros a Ha. apply load_store_ne. intros Heq. apply Ha. now left.
Qed.

Lemma concat_singletons (p : nat) :
  forall n s, concat (map (fun i => [p + i]) (seq s n)) = seq (p + s) n.
Proof.
  induction n as [|n IH]; intros s; cbn; [reflexivity|].
  f_equal. rewrite IH. f_equal. lia.
Qed.

Lemma draws_fold_map {A B} (f : A -> B) (D : B -> Rand -> list float32 * Rand)
    (xs : list A) (r : Rand) :
  draws_fold (fun x => D (f x)) xs r = draws_fold D (map f xs) r.
Proof.
  revert r. induction xs as [|x xs IH]; intros r; cbn; [reflexivity|].
  destruct (D (f x) r) as [v r1]. now rewrite IH.
Qed.

Lemma draws_fold_ext {A} (D D' : A -> Rand -> list float32 * Rand)
    (xs : list A) (r : Rand) :
  (forall x r, In x xs -> D x r = D' x r) ->
  draws_fold D xs r = draws_fold D' xs r.
Proof.
  revert r. induction xs as [|x xs IH]; intros r H; cbn; [reflexivity|].
  rewrite (H x r (or_introl eq_refl)). destruct (D' x r) as [v r1].
  rewrite IH; [reflexivity|]. intros y r' Hy. apply H. now right.
Qed.

(** [for i := range s { s[i] = g(r) }] *)
Lemma fills_slice (g : Rand -> float32 * Rand) (s : Slice) :
  fills (foldM (seq 0 (len s)) (fun i r =>
           let (v, r') := g r in slice_set s i v ;; ret r'))
        (addrs s) (slice_draws g (len s)).
Proof.
  unfold addrs, slice_draws.
  rewrite <- (Nat.add_0_r (ptr s)) at 1. rewrite <- concat_singletons.
  apply (fills_foldM
           (fun i r => let (v, r') := g r in slice_set s i v ;; ret r')
           (fun i => [ptr s + i])
           (fun _ r => let (v, r') := g r in ([v], r'))).
  - intros i Hi. apply in_seq in Hi. apply fills_cell. lia.
  - rewrite concat_singletons. apply NoDup_seq.
Qed.

Lemma fills_ext (C C' : Rand -> M Rand) (cs : list nat)
    (D D' : Rand -> list float32 * Rand) :
  (forall r h, C r h = C' r h) -> (forall r, D r = D' r) ->
  fills C cs D -> fills C' cs D'.
Proof.
  intros HC HD H r h. destruct (H r h) as (h' & Hrun & Hval & Hfr).
  exists h'. rewrite <- HC, <- HD. auto.
Qed.

(** [DenseLayer.InitWeights] on rows that share no cell. *)
Lemma fills_DenseLayer (l : list Slice) :
  NoDup (Layer_cells (Dense l)) ->
  fills (DenseLayer_InitWeights l) (Layer_cells (Dense l))
        (layer_draws (map len l)).
Proof.
  intros Hnd. cbn [Layer_cells] in *.
  apply (fills_ext
           (foldM l (fun row r =>
              foldM (seq 0 (len row)) (fun i r =>
                let (w, r') := draw_weight (length l) (len row) r in
                slice_set row i w ;; ret r') r))
           _ _
           (draws_fold (fun row =>
              slice_draws (draw_weight (length l) (len row)) (len row)) l)).
  - reflexivity.
  - intros r. unfold layer_draws. rewrite length_map.
    apply (draws_fold_map len
             (fun n => slice_draws (draw_weight (length l) n) n)).
  - apply (fills_foldM
             (fun row r =>
                foldM (seq 0 (len row)) (fun i r =>
                  let (w, r') := draw_weight (length l) (len row) r in
                  slice_set row i w ;; ret r') r)
             addrs
             (fun row => slice_draws (draw_weight (length l) (len row)) (len row)));
      [|exact Hnd].
    intros row _. apply fills_slice.
Qed.

(** [Model.InitWeights] on a model whose cells are all distinct. *)
Lemma fills_Model (m : Model) :
  NoDup (Model_cells m) ->
  fills (Model_InitWeights m) (Model_cells m)
        (InitWeights_draws (fst (Model_skeleton m)) (snd (Model_skeleton m))).
Proof.
  intros Hnd. unfold Model_cells in *.
  apply NoDup_app in Hnd as (Hnd_b & Hdisj & Hnd_l).
  unfold Model_InitWeights, InitWeights_draws, Model_skeleton. cbn [fst snd].
  apply (fills_seq
           (foldM (seq 0 (len (Biases m))) (fun i r =>
              let (b, r') := draw_bias r in slice_set (Biases m) i b ;; ret r'))
           (foldM (Layers m) (fun l r => Layer_InitWeights l r))
           (addrs (Biases m)) (concat (map Layer_cells (Layers m)))
           (slice_draws draw_bias (len (Biases m)))
           (draws_fold layer_draws (map Layer_lens (Layers m)))).
  - apply fills_slice.
  - apply (fills_ext (foldM (Layers m) (fun l r => Layer_InitWeights l r))
             _ _ (draws_fold (fun l => layer_draws (Layer_lens l)) (Layers m)));
      [reflexivity | |].
    + intros r. apply (draws_fold_map Layer_lens layer_draws).
    + apply (fills_foldM (fun l r => Layer_InitWeights l r) Layer_cells
               (fun l => layer_draws (Layer_lens l))); [|exact Hnd_l].
      intros [d] Hd. cbn [Layer_InitWeights Layer_lens].
      apply fills_DenseLayer.
      clear - Hnd_l Hd. induction (Layers m) as [|x xs IH]; [destruct Hd|].
      cbn [map concat] in Hnd_l. apply NoDup_app in Hnd_l as (H1 & _ & H2).
      destruct Hd as [->|Hd]; [exact H1 | now apply IH].
  - intros a Ha Ha'. apply (Hdisj a); now apply list_elem_of_In.
Qed.

(** The loop bodies draw as the order of the specification has it. *)
Lemma slice_draws_draw_n {A} (g : Rand -> A * Rand) (f : A -> float32)
    (n : nat) (r : Rand) :
  slice_draws (fun r => let (x, r') := g r in (f x, r')) n r =
  (let (xs, r') := draw_n g n r in (map f xs, r')).
Proof.
  unfold slice_draws. generalize 0 at 1. revert r.
  induction n as [|n IH]; intros r s; cbn [seq draws_fold draw_n];
    [reflexivity|].
  destruct (g r) as [x r1]. rewrite IH.
  destruct (draw_n g n r1) as [xs r2]. reflexivity.
Qed.

Lemma layer_draws_weights (lens : list nat) (r : Rand) :
  layer_draws lens r = layer_weights lens r.
Proof.
  unfold layer_draws, layer_weights. apply draws_fold_ext. intros n r0 _.
  apply (slice_draws_draw_n Rand_Float32
           (scaled_uniform (xavier (length lens) n))).
Qed.

Lemma InitWeights_draws_spec (nb : nat) (shapes : list (list nat)) (r : Rand) :
  InitWeights_draws nb shapes r = InitWeights_spec nb shapes r.
Proof.
  unfold InitWeights_draws, InitWeights_spec.
  change (slice_draws draw_bias nb r)
    with (slice_draws (fun r => let (x, r') := Rand_NormFloat64 r in
                                (scaled_normal x, r')) nb r).
  rewrite slice_draws_draw_n.
  destruct (draw_n Rand_NormFloat64 nb r) as [xs r1].
  rewrite (draws_fold_ext layer_draws layer_weights shapes r1);
    [reflexivity|].
  intros lens r0 _. apply layer_draws_weights.
Qed.

Lemma length_draw_n {A} (g : Rand -> A * Rand) (n : nat) (r : Rand) :
  length (fst (draw_n g n r)) = n.
Proof.
  revert r. induction n as [|n IH]; intros r; cbn [draw_n]; [reflexivity|].
  destruct (g r) as [x r1]. specialize (IH r1).
  destruct (draw_n g n r1) as [xs r2]. cbn [fst length] in *. now rewrite IH.
Qed.

(** C4. [Model.InitWeights] consumes the source in a fixed order: the
    biases are the first [len(Biases)] standard-normal draws, each taken to
    [float32] and divided by 64; the weights follow, layer after layer and
    row after row, from the state the bias draws leave, each weight from one
    uniform draw.  Hence two models of the same structure, each with cells
    of its own, initialised from sources in the same state, hold the same
    biases and weights and leave the sources in the same state. *)
Theorem Model_InitWeights_deterministic
    (m1 m2 : Model) (r : Rand) (h1 h2 : Heap) :
  Model_skeleton m1 = Model_skeleton m2 ->
  NoDup (Model_cells m1) -> NoDup (Model_cells m2) ->
  exists (r' : Rand) (h1' h2' : Heap),
    Model_InitWeights m1 r h1 = Ok (r', h1') /\
    Model_InitWeights m2 r h2 = Ok (r', h2') /\
    Model_values h1' m1 = Model_values h2' m2 /\
    read h1' (Biases m1) =
      map scaled_normal (fst (draw_n Rand_NormFloat64 (len (Biases m1)) r)) /\
    (map (load h1') (concat (map Layer_cells (Layers m1))), r') =
      draws_fold layer_weights (map Layer_lens (Layers m1))
        (snd (draw_n Rand_NormFloat64 (len (Biases m1)) r)) /\
    (Model_values h1' m1, r') =
      InitWeights_spec (len (Biases m1)) (map Layer_lens (Layers m1)) r /\
    (forall a, ~ In a (Model_cells m1) -> load h1' a = load h1 a).
Proof.
  intros Hsk Hnd1 Hnd2.
  destruct (fills_Model m1 Hnd1 r h1) as (h1' & Hrun1 & Hval1 & Hfr1).
  destruct (fills_Model m2 Hnd2 r h2) as (h2' & Hrun2 & Hval2 & _).
  rewrite <- Hsk in Hrun2, Hval2.
  cbn [Model_skeleton fst snd] in *.
  rewrite InitWeights_draws_spec in Hrun1, Hrun2, Hval1, Hval2.
  exists (snd (InitWeights_spec (len (Biases m1))
                 (map Layer_lens (Layers m1)) r)), h1', h2'.
  assert (Hlen : length (addrs (Biases m1)) =
                 length (map scaled_normal
                   (fst (draw_n Rand_NormFloat64 (len (Biases m1)) r)))).
  { unfold addrs. now rewrite length_seq, length_map, length_draw_n. }
  unfold Model_values, Model_cells in *. rewrite map_app in Hval1.
  unfold InitWeights_spec in *.
  destruct (draw_n Rand_NormFloat64 (len (Biases m1)) r) as [xs r1].
  destruct (draws_fold layer_weights (map Layer_lens (Layers m1)) r1)
    as [ws r2] eqn:Hws.
  cbn [fst snd] in *.
  apply app_inj_1 in Hval1 as [Hb Hw]; [|rewrite length_map; exact Hlen].
  repeat split; auto.
  - rewrite map_app. congruence.
  - now rewrite Hw.
  - rewrite map_app. congruence.
Qed.
(* ------------------------------------------------------------------ *)
(** * The weights of a layer after InitWeights *)

Lemma writes_nil (P : float32 -> Prop) : writes P (fun r => ret r) [].
Proof.
  intros r h. exists r, h. split; [reflexivity|].
  split; [intros a []|reflexivity].
Qed.

Lemma writes_seq (P : float32 -> Prop) (C1 C2 : Rand -> M Rand)
    (c1 c2 : list nat) :
  writes P C1 c1 -> writes P C2 c2 ->
  writes P (fun r => r1 <- C1 r ;; C2 r1) (c1 ++ c2).
Proof.
  intros H1 H2 r h.
  destruct (H1 r h) as (r1 & h1 & Hrun1 & Hin1 & Hfr1).
  destruct (H2 r1 h1) as (r2 & h2 & Hrun2 & Hin2 & Hfr2).
  exists r2, h2. rewrite (bind_Ok _ _ _ _ _ Hrun1).
  split; [exact Hrun2|]. split.
  - intros a Ha. destruct (in_dec Nat.eq_dec a c2) as [Hc2|Hc2].
    + now apply Hin2.
    + rewrite (Hfr2 a Hc2). apply Hin1.
      apply in_app_or in Ha as [Ha|Ha]; [exact Ha | contradiction].
  - intros a Ha. rewrite Hfr2, Hfr1; [reflexivity | |];
      intros Hin; apply Ha, in_or_app; auto.
Qed.

Lemma writes_foldM {A} (P : float32 -> Prop) (body : A -> Rand -> M Rand)
    (cells_of : A -> list nat) (xs : list A) :
  (forall x, In x xs -> writes P (body x) (cells_of x)) ->
  writes P (foldM xs body) (concat (map cells_of xs)).
Proof.
  induction xs as [|x xs IH]; intros Hbody.
  - exact (writes_nil P).
  - cbn [map concat].
    apply (writes_seq P (body x) (foldM xs body) (cells_of x)
             (concat (map cells_of xs))).
    + apply Hbody. now left.
    + apply IH. intros y Hy. apply Hbody. now right.
Qed.

(** One assignment [s[i] = g(r)]. *)
Lemma writes_cell (P : float32 -> Prop) (g : Rand -> float32 * Rand)
    (s : Slice) (i : nat) :
  (forall r, P (fst (g r))) -> i < len s ->
  writes P (fun r => let (v, r') := g r in slice_set s i v ;; ret r')
         [ptr s + i].
Proof.
  intros Hg Hi r h. specialize (Hg r). destruct (g r) as [v r'].
  exists r', (store (ptr s + i) v h).
  rewrite (bind_Ok _ _ _ _ _ (slice_set_Ok s i v h Hi)). cbn.
  split; [reflexivity|]. split.
  - intros a [<-|[]]. now rewrite load_store_eq.
  - intros a Ha. apply load_store_ne. intros Heq. apply Ha. now left.
Qed.

(** [for i := range s { s[i] = g(r) }] *)
Lemma writes_slice (P : float32 -> Prop) (g : Rand -> float32 * Rand)
    (s : Slice) :
  (0 < len s -> forall r, P (fst (g r))) ->
  writes P (foldM (seq 0 (len s)) (fun i r =>
              let (v, r') := g r in slice_set s i v ;; ret r'))
         (addrs s).
Proof.
  intros Hg. unfold addrs.
  rewrite <- (Nat.add_0_r (ptr s)) at 1. rewrite <- concat_singletons.
  apply (writes_foldM P
           (fun i r => let (v, r') := g r in slice_set s i v ;; ret r')
           (fun i => [ptr s + i])).
  intros i Hi. apply in_seq in Hi. apply writes_cell; [apply Hg|]; lia.
Qed.

(** One weight of a layer with at least one row and one column lies within
    the bound, when the uniform source keeps its contract. *)
Lemma draw_weight_within (fanIn fanOut : nat) (r : Rand) :
  (forall r0, unit_draw (fst (Rand_Float32 r0))) ->
  1 <= fanIn -> 1 <= fanOut ->
  within (xavier fanIn fanOut) (fst (draw_weight fanIn fanOut r)).
Proof.
  intros Hu Hi Ho. unfold draw_weight. specialize (Hu r).
  destruct (Rand_Float32 r) as [u r']. cbn [fst] in *.
  apply (weight_bounds u (xavier fanIn fanOut) Hu).
  now apply xavier_bound_ok.
Qed.

(** [DenseLayer.InitWeights] leaves in every cell of the layer a value
    within the bound, whether or not the rows share cells. *)
Lemma writes_DenseLayer (l : list Slice) (fanOut : nat) :
  (forall r0, unit_draw (fst (Rand_Float32 r0))) ->
  rectangular l fanOut ->
  writes (within (xavier (length l) fanOut)) (DenseLayer_InitWeights l)
         (Layer_cells (Dense l)).
Proof.
  intros Hu Hrect. cbn [Layer_cells].
  apply (writes_foldM (within (xavier (length l) fanOut))
           (fun row r =>
              foldM (seq 0 (len row)) (fun i r =>
                let (w, r') := draw_weight (length l) (len row) r in
                slice_set row i w ;; ret r') r)
           addrs).
  intros row Hrow.
  assert (Hlen : len row = fanOut)
    by exact (proj1 (List.Forall_forall _ _) Hrect row Hrow).
  assert (Hl : 1 <= length l) by (destruct l; [destruct Hrow | cbn; lia]).
  apply (writes_slice (within (xavier (length l) fanOut))
           (draw_weight (length l) (len row)) row).
  intros Hpos r0. rewrite Hlen in *. now apply draw_weight_within.
Qed.

Lemma draw_n_app {A} (g : Rand -> A * Rand) (a b : nat) (r : Rand) :
  draw_n g (a + b) r =
  (let (xs, r1) := draw_n g a r in
   let (ys, r2) := draw_n g b r1 in (xs ++ ys, r2)).
Proof.
  revert r. induction a as [|a IH]; intros r; cbn [Nat.add draw_n].
  - now destruct (draw_n g b r).
  - destruct (g r) as [x r1]. rewrite IH.
    destruct (draw_n g a r1) as [xs r2]. now destruct (draw_n g b r2).
Qed.

(** The rows of a rectangular layer draw one after the other: its weights
    are the scaled values of one run of uniform draws. *)
Lemma layer_weights_rect (k n c : nat) (r : Rand) :
  draws_fold (row_weights k) (repeat n c) r =
  (let (us, r') := draw_n Rand_Float32 (c * n) r in
   (map (scaled_uniform (Xavier_bound k n)) us, r')).
Proof.
  revert r. induction c as [|c IH]; intros r; cbn [repeat draws_fold Nat.mul].
  - reflexivity.
  - unfold row_weights at 1. rewrite draw_n_app.
    destruct (draw_n Rand_Float32 n r) as [us r1]. rewrite IH.
    destruct (draw_n Rand_Float32 (c * n) r1) as [vs r2].
    now rewrite map_app.
Qed.

Lemma rectangular_lens (l : list Slice) (n : nat) :
  rectangular l n -> map len l = repeat n (length l).
Proof.
  induction 1 as [|row l Hrow _ IH]; cbn [map length repeat]; [reflexivity|].
  now rewrite Hrow, IH.
Qed.

(** The cell of [l[i][j]] among the cells of a rectangular layer. *)
Lemma nth_Layer_cells (l : list Slice) (n i j : nat) (row : Slice) :
  rectangular l n -> l !! i = Some row -> j < n ->
  nth (i * n + j) (concat (map addrs l)) 0 = ptr row + j.
Proof.
  intros Hrect. revert i. induction Hrect as [|x l Hx _ IH]; intros i Hrow Hj.
  - discriminate Hrow.
  - cbn [map concat]. destruct i as [|i].
    + injection Hrow as ->. cbn [Nat.mul Nat.add].
      rewrite app_nth1 by (unfold addrs; rewrite length_seq; lia).
      unfold addrs. apply seq_nth. lia.
    + cbn [Nat.mul]. rewrite app_nth2 by (unfold addrs; rewrite length_seq; lia).
      replace (n + i * n + j - length (addrs x)) with (i * n + j)
        by (unfold addrs; rewrite length_seq; lia).
      now apply IH.
Qed.

(** C5. On a layer of shape (fanIn, fanOut), with a uniform source whose
    draws lie in [0, 1), [DenseLayer.InitWeights] succeeds and leaves every
    weight within [-bound, +bound], where bound is the Xavier bound
    [sqrt(6 / (fanIn + fanOut))] in [float32].  When no two weights share a
    cell, weight (i, j) is the draw number [i * fanOut + j], moved to
    [-1, 1) and scaled by the bound, so every weight has a draw of its own.
    No cell outside the layer is written. *)
Theorem DenseLayer_InitWeights_within_xavier
    (l : DenseLayer) (r : Rand) (h : Heap) (fanIn fanOut : nat) :
  (forall r0, unit_draw (fst (Rand_Float32 r0))) ->
  DenseLayer_Shape l = Ok (fanIn, fanOut) ->
  rectangular l fanOut ->
  exists (r' : Rand) (h' : Heap),
    DenseLayer_InitWeights l r h = Ok (r', h') /\
    (forall i j, i < fanIn -> j < fanOut ->
       within (Xavier_bound fanIn fanOut) (weight h' l i j)) /\
    (NoDup (Layer_cells (Dense l)) ->
       r' = snd (draw_n Rand_Float32 (fanIn * fanOut) r) /\
       forall i j, i < fanIn -> j < fanOut ->
         weight h' l i j =
         scaled_uniform (Xavier_bound fanIn fanOut)
           (nth_draw (fst (draw_n Rand_Float32 (fanIn * fanOut) r))
                     (i * fanOut + j))) /\
    (forall a, ~ In a (Layer_cells (Dense l)) -> load h' a = load h a).
Proof.
  intros Hu Hshape Hrect.
  destruct (DenseLayer_Shape_inv _ _ _ Hshape) as (row0 & Hrow0 & <- & Hlen0).
  destruct (writes_DenseLayer l fanOut Hu Hrect r h)
    as (r' & h' & Hrun & Hin & Hfr).
  change (xavier (length l) fanOut) with (Xavier_bound (length l) fanOut) in Hin.
  exists r', h'. split; [exact Hrun|]. split; [|split; [|exact Hfr]].
  - intros i j Hi Hj. unfold weight.
    destruct (lookup_lt_is_Some_2 l i Hi) as [row Hrow]. rewrite Hrow.
    pose proof (rectangular_lookup l fanOut i row Hrect Hrow) as Hlen.
    apply Hin. cbn [Layer_cells]. apply in_concat. exists (addrs row). split.
    + apply in_map. apply list_elem_of_In. now apply list_elem_of_lookup_2 with i.
    + unfold addrs. apply in_seq. lia.
  - intros Hnd.
    destruct (fills_DenseLayer l Hnd r h) as (h'' & Hrun' & Hval & _).
    rewrite Hrun in Hrun'. injection Hrun' as Hr Hh. subst h''.
    rewrite layer_draws_weights in Hr, Hval. unfold layer_weights in Hr, Hval.
    rewrite length_map, (rectangular_lens l fanOut Hrect),
      layer_weights_rect in Hr, Hval.
    pose proof (length_draw_n Rand_Float32 (length l * fanOut) r) as Hlen.
    destruct (draw_n Rand_Float32 (length l * fanOut) r) as [us r1].
    cbn [fst snd] in *. split; [exact Hr|].
    intros i j Hi Hj. unfold weight, nth_draw.
    destruct (lookup_lt_is_Some_2 l i Hi) as [row Hrow]. rewrite Hrow.
    unfold at_. cbn [Layer_cells] in Hval.
    rewrite <- (nth_Layer_cells l fanOut i j row Hrect Hrow Hj).
    rewrite <- (map_nth (load h')), Hval.
    assert (Hk : i * fanOut + j < length us).
    { rewrite Hlen. apply Nat.lt_le_trans with (S i * fanOut); [cbn; lia|].
      apply Nat.mul_le_mono_r. lia. }
    rewrite (nth_indep _ (load h' 0)
               (scaled_uniform (Xavier_bound (length l) fanOut) F32.zero))
      by (now rewrite length_map).
    apply map_nth.
Qed.
(* ------------------------------------------------------------------ *)
(** * Softmax *)

Lemma softmaxd_spec (xs : Slice) (h : Heap) :
  softmaxd xs h = Ok (softmax_sum h xs, h).
Proof.
  unfold softmaxd, softmax_sum, read, addrs.
  assert (Hgen : forall k from sp,
    from + k <= len xs ->
    foldM (seq from k) (fun i sp =>
      x <- slice_get xs i ;; ret (F32.add sp (exp x))) sp h =
    Ok (fold_left (fun sp x => F32.add sp (exp x))
          (map (load h) (seq (ptr xs + from) k)) sp, h)).
  { induction k as [|k IH]; intros from sp Hle; [reflexivity|].
    cbn [seq foldM map fold_left].
    erewrite bind_Ok.
    2: { erewrite bind_Ok; [reflexivity|]. apply slice_get_Ok. lia. }
    rewrite IH by lia. unfold at_. repeat f_equal. lia. }
  rewrite (Hgen (len xs) 0 F32.zero) by lia. now rewrite Nat.add_0_r.
Qed.

(** C8, as the code has it.  [Softmax] never panics; it replaces each
    element [x] by [e^x] divided by the sum of [e^x_i] over the vector as
    it was on entry, and writes nowhere else. *)
Theorem Softmax_replaces_elements (xs : Slice) (h : Heap) :
  exists h',
    Softmax xs h = Ok (tt, h') /\
    (forall i, i < len xs ->
       at_ h' xs i = F32.div (exp (at_ h xs i)) (softmax_sum h xs)) /\
    (forall a, outside xs a -> load h' a = load h a).
Proof.
  unfold Softmax. rewrite (bind_Ok _ _ _ _ _ (softmaxd_spec xs h)).
  destruct (forM__pointwise xs
              (fun i => x <- slice_get xs i ;;
                        slice_set xs i (F32.div (exp x) (softmax_sum h xs)))
              (fun h0 j => F32.div (exp (at_ h0 xs j)) (softmax_sum h xs)))
    with (k := len xs) (from := 0) (h := h) as (h' & Hrun & Hin & Hout).
  - intros h0 j Hj.
    rewrite (bind_Ok _ _ _ _ _ (slice_get_Ok xs j h0 Hj)).
    now apply slice_set_Ok.
  - intros h0 j i v Hi Hj Hne. unfold at_.
    rewrite load_store_ne by lia. reflexivity.
  - lia.
  - exists h'. split; [exact Hrun|]. split.
    + intros i Hi. apply Hin. lia.
    + intros a Ha. apply Hout. intros j Hj. destruct Ha; lia.
Qed.
(* ------------------------------------------------------------------ *)
(** * NewDenseLayer *)









(* ------------------------------------------------------------------ *)
(** * Model.Forward on one layer *)

Lemma DenseLayer_Forward_sum (l : DenseLayer) (in_ out : Slice) (h : Heap)
    (fanIn fanOut : nat) :
  DenseLayer_Shape l = Ok (fanIn, fanOut) ->
  rectangular l fanOut ->
  len in_ = fanIn -> len out = fanOut ->
  separate out in_ -> Forall (separate out) l ->
  exists h',
    DenseLayer_Forward l in_ out h = Ok (out, h') /\
    (forall j, j < fanOut ->
       at_ h' out j = accumulate h l in_ j fanIn (at_ h out j)) /\
    (forall a, outside out a -> load h' a = load h a).
Proof.
  intros Hshape Hrect Hin Hout Hsep_in Hsep_l.
  destruct (DenseLayer_Shape_inv _ _ _ Hshape) as (row0 & Hrow0 & Hlen & Hlen0).
  rewrite (DenseLayer_Forward_checks_pass l in_ out row0 h Hrow0) by congruence.
  rewrite <- Hout in Hrect.
  assert (Hin' : len in_ = length l) by congruence.
  destruct (Forward_rows l in_ out Hin' Hrect Hsep_in Hsep_l (len in_) 0 h
              ltac:(lia)) as (h' & Hrun & Hacc & Hframe).
  exists h'. split; [|split].
  - unfold range. now rewrite (bind_Ok _ _ _ _ _ Hrun).
  - intros j Hj. unfold accumulate. rewrite <- Hin. apply Hacc. lia.
  - exact Hframe.
Qed.

(** [for i, x := range out { out[i] = a.Apply(x + b) }] *)
Lemma Forward_activation (out : Slice) (a : activFn) (b : float32) (h : Heap) :
  exists h',
    range (len out) (fun k =>
      x <- slice_get out k ;;
      slice_set out k (Apply a (F32.add x b))) h = Ok (tt, h') /\
    (forall j, j < len out -> at_ h' out j = Apply a (F32.add (at_ h out j) b)) /\
    (forall c, outside out c -> load h' c = load h c).
Proof.
  destruct (forM__pointwise out
              (fun k => x <- slice_get out k ;;
                        slice_set out k (Apply a (F32.add x b)))
              (fun h j => Apply a (F32.add (at_ h out j) b)))
    with (k := len out) (from := 0) (h := h) as (h' & Hrun & Hin & Hout).
  - intros h0 j Hj.
    rewrite (bind_Ok _ _ _ _ _ (slice_get_Ok out j h0 Hj)).
    now apply slice_set_Ok.
  - intros h0 j i v Hi Hj Hne. unfold at_.
    rewrite load_store_ne by lia. reflexivity.
  - lia.
  - exists h'. split; [exact Hrun|]. split.
    + intros j Hj. apply Hin. lia.
    + intros c Hc. apply Hout. intros j Hj. destruct Hc; lia.
Qed.

Lemma seq_from (p n : nat) : seq p n = map (fun j => p + j) (seq 0 n).
Proof.
  revert p. induction n as [|n IH]; intros p; cbn [seq map]; [reflexivity|].
  f_equal; [lia|]. rewrite (IH (S p)), (IH 1), map_map.
  apply map_ext. intros j. lia.
Qed.

Lemma nth_read (h : Heap) (s : Slice) (k : nat) :
  k < len s -> nth k (read h s) F32.zero = at_ h s k.
Proof.
  intros Hk. unfold read, addrs, at_.
  rewrite (nth_indep _ F32.zero (load h 0)) by (now rewrite length_map, length_seq).
  rewrite map_nth, seq_nth by exact Hk. reflexivity.
Qed.

Lemma length_read (h : Heap) (s : Slice) : length (read h s) = len s.
Proof. unfold read, addrs. now rewrite length_map, length_seq. Qed.

(** X2. A model of one layer computes what the specification asks: with
    an input of the layer's fanIn, an output buffer of its fanOut that holds
    zeros and overlaps neither the input, nor a row of the layer, nor the
    biases, [Model.Forward] returns the output buffer, whose element [j] is
    [Apply((sum over k of input[k] * weight[k][j]) + bias)], and writes no
    cell outside it. *)
Theorem Model_Forward_one_layer
    (m : Model) (d : DenseLayer) (a : activFn) (in_ out : Slice) (h : Heap)
    (fanIn fanOut : nat) :
  Layers m = [Dense d] -> ActivFn m = [a] -> 1 <= len (Biases m) ->
  DenseLayer_Shape d = Ok (fanIn, fanOut) ->
  rectangular d fanOut ->
  len in_ = fanIn -> len out = fanOut ->
  separate out in_ -> Forall (separate out) d -> separate out (Biases m) ->
  (forall j, j < fanOut -> at_ h out j = F32.zero) ->
  exists h',
    Model_Forward m in_ out h = Ok (out, h') /\
    read h' out =
      Forward_spec h (Layers m) (read h (Biases m)) (ActivFn m) (read h in_) /\
    (forall c, outside out c -> load h' c = load h c).
Proof.
  intros HL HA HB Hshape Hrect Hin Hout Hsep_in Hsep_d Hsep_b Hzero.
  destruct (DenseLayer_Forward_sum d in_ out h fanIn fanOut
              Hshape Hrect Hin Hout Hsep_in Hsep_d) as (h1 & Hfw & Hsum & Hfr1).
  destruct (Forward_activation out a (at_ h1 (Biases m) 0) h1)
    as (h2 & Hact & Hval & Hfr2).
  assert (Hbias : at_ h1 (Biases m) 0 = at_ h (Biases m) 0).
  { unfold at_. apply Hfr1. unfold outside. destruct Hsep_b; lia. }
  assert (Hrun : Model_Forward m in_ out h = Ok (out, h2)).
  { assert (Hstage : Forward_stage m (Dense d) 0 in_ out h = Ok (out, h2)).
    { unfold Forward_stage. cbn [Layer_Shape Layer_Forward].
      rewrite (bind_Ok _ _ _ _ _ (lift_Ok _ _ h Hshape)). cbn [snd].
      assert (Hres : resize_out out fanOut h = Ok (out, h)).
      { unfold resize_out. rewrite Hout.
        destruct (Nat.ltb_spec fanOut fanOut); [lia | reflexivity]. }
      rewrite (bind_Ok _ _ _ _ _ Hres), (bind_Ok _ _ _ _ _ Hfw).
      rewrite (bind_Ok _ _ _ _ _ (slice_get_Ok (Biases m) 0 h1 HB)).
      rewrite HA.
      rewrite (bind_Ok _ _ _ _ _ (lift_Ok _ _ h1 (index_lookup [a] 0 a eq_refl))).
      rewrite (bind_Ok _ _ _ _ _ Hact). reflexivity. }
    unfold Model_Forward. rewrite HL. cbn [Forward_loop].
    rewrite (bind_Ok _ _ _ _ _ Hstage), HL. reflexivity. }
  exists h2. split; [exact Hrun|]. split.
  - rewrite HL, HA.
    assert (Hbs : exists bs, read h (Biases m) = at_ h (Biases m) 0 :: bs).
    { unfold read, addrs, at_. destruct (len (Biases m)) as [|n]; [lia|].
      cbn [seq map]. rewrite Nat.add_0_r. eauto. }
    destruct Hbs as [bs ->]. cbn [Forward_spec].
    replace (Forward_spec h [] bs []
               (stage_spec h d (at_ h (Biases m) 0) a (read h in_)))
      with (stage_spec h d (at_ h (Biases m) 0) a (read h in_))
      by (now destruct bs).
    destruct (DenseLayer_Shape_inv _ _ _ Hshape) as (row0 & Hrow0 & Hlen & Hlen0).
    unfold stage_spec. rewrite Hrow0, Hlen0.
    unfold read at 1, addrs. rewrite Hout, (seq_from (ptr out) fanOut), map_map.
    apply map_ext_in. intros j Hj. apply in_seq in Hj.
    change (load h2 (ptr out + j)) with (at_ h2 out j).
    rewrite Hval by lia. rewrite Hsum, Hzero, Hbias by lia.
    f_equal. f_equal. unfold accumulate. rewrite length_read, Hin.
    apply fold_left_ext_in. intros acc k Hk. apply in_seq in Hk.
    now rewrite nth_read by lia.
  - intros c Hc. rewrite Hfr2, Hfr1 by exact Hc. reflexivity.
Qed.

(* ------------------------------------------------------------------ *)
(** * The lengths around Model.Forward *)

Lemma Forward_loop_lengths (m : Model) :
  forall (todo : list Layer) (i : nat) (in_ out res : Slice) (h h' : Heap),
    Forward_loop m todo i in_ out h = Ok (res, h') ->
    i + length todo = length (Layers m) ->
    exists (first lst : Layer) (p p' q q' : nat),
      todo !! 0 = Some first /\ last todo = Some lst /\
      Layer_Shape first = Ok (p, p') /\ Layer_Shape lst = Ok (q', q) /\
      len in_ = p /\ len res = q.
Proof.
  induction todo as [|l todo IH]; intros i in_ out res h h' Hrun Hlen.
  - discriminate Hrun.
  - cbn [Forward_loop] in Hrun.
    apply bind_inv_Ok in Hrun as (o1 & h1 & Hstage & Hrest).
    destruct l as [d].
    destruct (Forward_stage_inv_Ok m d i in_ out o1 h h1 Hstage)
      as (Hin & fanOut & Hsh & Hout).
    cbn [length] in Hlen.
    destruct (Nat.ltb_spec (S i) (length (Layers m))) as [Hlt|Hge].
    + destruct todo as [|l2 todo]; [cbn in Hlen; lia|].
      destruct (IH (S i) o1 in_ res h1 h' Hrest ltac:(cbn [length] in *; lia))
        as (first & lst & p & p' & q & q' & Hf & Hl & Hsf & Hsl & _ & Hres).
      exists (Dense d), lst, (length d), fanOut, q, q'.
      repeat split; auto.
    + injection Hrest as -> ->.
      destruct todo as [|l2 todo]; [|cbn [length] in Hlen; lia].
      exists (Dense d), (Dense d), (length d), fanOut, fanOut, (length d).
      repeat split; auto.
Qed.

(** X3. Whenever [Model.Forward] returns, the model has a shape, the input
    had the length of the model's fanIn and the returned vector has the
    length of the model's fanOut. *)
Theorem Model_Forward_lengths
    (m : Model) (in_ out res : Slice) (h h' : Heap) :
  Model_Forward m in_ out h = Ok (res, h') ->
  exists (fanIn fanOut : nat),
    Model_Shape m = Ok (fanIn, fanOut) /\ len in_ = fanIn /\ len res = fanOut.
Proof.
  intros Hrun.
  destruct (Forward_loop_lengths m (Layers m) 0 in_ out res h h' Hrun eq_refl)
    as (first & lst & p & p' & q & q' & Hf & Hl & Hsf & Hsl & Hin & Hres).
  exists p, q. split; [|split; assumption].
  unfold Model_Shape. rewrite (index_lookup _ _ _ Hf), Hsf.
  rewrite last_lookup in Hl.
  replace (length (Layers m) - 1) with (pred (length (Layers m))) by lia.
  now rewrite (index_lookup _ _ _ Hl), Hsl.
Qed.



(* ------------------------------------------------------------------ *)
(** * Model.Forward does not fail on layers that compose *)

Lemma Forward_loop_total (m : Model) :
  length (Layers m) <= len (Biases m) ->
  length (Layers m) <= length (ActivFn m) ->
  forall (todo : list Layer) (i : nat) (in_ out : Slice) (h : Heap),
    todo <> [] -> composes (len in_) todo ->
    Slice_wf in_ -> Slice_wf out ->
    i + length todo = length (Layers m) ->
    exists res h', Forward_loop m todo i in_ out h = Ok (res, h').
Proof.
  intros Hb Ha. induction todo as [|l todo IH];
    intros i in_ out h Hne Hcomp Hwf_in Hwf_out Hlen; [contradiction|].
  destruct l as [d]. cbn [composes] in Hcomp.
  destruct Hcomp as (q & Hsh & Hrect & Hcomp). cbn [length] in Hlen.
  destruct (Forward_stage_total m d i in_ out h (len in_) q Hsh Hrect eq_refl
              Hwf_out ltac:(lia) ltac:(lia)) as (o1 & h1 & Hstage & Hlen1 & Hwf1).
  cbn [Forward_loop]. rewrite (bind_Ok _ _ _ _ _ Hstage).
  destruct (Nat.ltb_spec (S i) (length (Layers m))) as [Hlt|Hge].
  - apply IH; auto.
    + intros ->. cbn in Hlen. lia.
    + now rewrite Hlen1.
    + lia.
  - now exists o1, h1.
Qed.

(** X5. When the model has a layer, the layers compose from the length of
    the input, and there is a bias and an activation for every layer,
    [Model.Forward] does not panic, whatever the two buffers hold. *)
Theorem Model_Forward_total (m : Model) (in_ out : Slice) (h : Heap) :
  Layers m <> [] ->
  composes (len in_) (Layers m) ->
  length (Layers m) <= len (Biases m) ->
  length (Layers m) <= length (ActivFn m) ->
  Slice_wf in_ -> Slice_wf out ->
  exists res h', Model_Forward m in_ out h = Ok (res, h').
Proof.
  intros Hne Hcomp Hb Ha Hwf_in Hwf_out.
  now apply (Forward_loop_total m Hb Ha (Layers m) 0 in_ out h).
Qed.

(* ------------------------------------------------------------------ *)
(** * More on Fixed8 and on the Xavier bound *)

Lemma Fixed8_ascending_all : Fixed8_ascending = true.
Proof. vm_compute. reflexivity. Qed.

(** X6. Decoding is strictly increasing on [int8]: a smaller stored value
    decodes to a smaller number, so distinct stored values decode to
    distinct numbers. *)
Theorem Fixed8_Float32_increasing (s t : Fixed8) :
  is_int8 s -> is_int8 t -> (s < t)%Z ->
  F32.ltb (Fixed8_Float32 s) (Fixed8_Float32 t) = true.
Proof.
  intros Hs Ht Hlt. pose proof Fixed8_ascending_all as H.
  unfold Fixed8_ascending in H.
  set (vs := map (fun s => (s, Fixed8_Float32 s)) int8_values) in H.
  assert (Hin : forall x, is_int8 x -> In (x, Fixed8_Float32 x) vs).
  { intros x Hx. unfold vs.
    apply (in_map (fun s => (s, Fixed8_Float32 s))).
    now apply int8_values_complete. }
  pose proof (proj1 (forallb_forall _ _) H _ (Hin s Hs)) as H1.
  pose proof (proj1 (forallb_forall _ _) H1 _ (Hin t Ht)) as H2.
  cbn [fst snd] in H2.
  destruct (Z.ltb_spec s t) as [_|Hge]; [exact H2 | lia].
Qed.

Lemma SFadd_comm (prec emax : Z) (x y : spec_float) :
  SFadd prec emax x y = SFadd prec emax y x.
Proof.
  destruct x as [sx|sx| |sx mx ex], y as [sy|sy| |sy my ey];
    try reflexivity; try (destruct sx, sy; reflexivity).
  unfold SFadd. now rewrite Z.min_comm, Z.add_comm.
Qed.

(** X7. The bound does not depend on which of the two dimensions is
    which: [xavier(fanIn, fanOut) = xavier(fanOut, fanIn)]. *)
Theorem xavier_symmetric (fanIn fanOut : nat) :
  xavier fanIn fanOut = xavier fanOut fanIn.
Proof.
  unfold xavier. f_equal. f_equal. apply SFadd_comm.
Qed.

(* ------------------------------------------------------------------ *)
(** * A layer without rows *)

(** X8. [NewDenseLayer(0, fanOut)] succeeds and returns a layer without
    rows.  Such a layer has no shape: [Shape] panics on [l[0]], index 0 out
    of range with length 0; [Forward] on it panics too, and so do
    [Model.Shape] and [Model.Forward] of every model whose first layer it
    is. *)
Theorem DenseLayer_without_rows_panics :
  (forall (fanOut : nat) (h : Heap),
      NewDenseLayer 0 fanOut h = Ok ([], h)) /\
  DenseLayer_Shape [] = Panicked (IndexOutOfRange 0 0) /\
  (forall (in_ out : Slice) (h : Heap),
      is_panic (DenseLayer_Forward [] in_ out h)) /\
  (forall (m : Model) (rest : list Layer) (in_ out : Slice) (h : Heap),
      Layers m = Dense [] :: rest ->
      Model_Shape m = Panicked (IndexOutOfRange 0 0) /\
      Model_Forward m in_ out h = Panicked (IndexOutOfRange 0 0)).
Proof.
  split; [|split; [|split]].
  - reflexivity.
  - reflexivity.
  - intros in_ out h. unfold DenseLayer_Forward. cbn [length].
    destruct (len in_ =? 0); exact I.
  - intros m rest in_ out h HL. split.
    + unfold Model_Shape. now rewrite HL.
    + unfold Model_Forward. now rewrite HL.
Qed.
End Nann.

Lemma Fixed8_Float32_exact_witness :
  exists q : Q,
    SF2Q (Fixed8_Float32 (-3)) = Some q /\
    (q == (-3) # 8)%Q /\ (-16 <= q)%Q /\ (q <= 127 # 8)%Q /\
    F32.valid (Fixed8_Float32 (-3)) = true.
Proof. apply Fixed8_Float32_exact. unfold is_int8. lia. Defined.

Lemma Model_Shape_first_last_witness :
  Model_Shape (mkModel [Dense (dense_at 0 3 4); Dense (dense_at 12 4 2)]
                 (mkSlice 20 2 2) [Ident; Ident]) = Ok (3%nat, 2%nat) /\
  Model_Shape (mkModel [] (mkSlice 0 0 0) []) = Panicked (IndexOutOfRange 0 0).
Proof.
  split.
  - apply (proj1 Model_Shape_first_last _
             (Dense (dense_at 0 3 4)) (Dense (dense_at 12 4 2)) 3%nat 4%nat 4%nat 2%nat);
      reflexivity.
  - apply (proj2 (proj2 Model_Shape_first_last)). reflexivity.
Defined.

Lemma Model_Forward_empty_panics_witness :
  Model_Forward (fun _ _ => O) (mkModel [] (mkSlice 0 0 0) [])
    (mkSlice 0 2 2) (mkSlice 2 2 2) (heap_of [fl 5; fl 7; fl 0; fl 0])
  = Panicked (IndexOutOfRange 0 0).
Proof. apply Model_Forward_empty_panics. reflexivity. Defined.

Lemma DenseLayer_Forward_accumulates_witness :
  exists h',
    DenseLayer_Forward identity_layer (mkSlice 4 2 2) (mkSlice 6 2 2)
      identity_heap = Ok (mkSlice 6 2 2, h') /\
    (forall j, (j < 2)%nat ->
       at_ h' (mkSlice 6 2 2) j =
       accumulate identity_heap identity_layer (mkSlice 4 2 2) j 2
         (at_ identity_heap (mkSlice 6 2 2) j)) /\
    (forall a, outside (mkSlice 6 2 2) a -> load h' a = load identity_heap a).
Proof.
  apply (proj1 DenseLayer_Forward_accumulates identity_layer
           (mkSlice 4 2 2) (mkSlice 6 2 2) identity_heap 2%nat 2%nat).
  - reflexivity.
  - repeat constructor.
  - reflexivity.
  - reflexivity.
  - unfold separate. simpl. lia.
  - repeat constructor; unfold separate; simpl; lia.
Defined.

(** C2, read without a condition on the buffers, refuted.  With all
    weights 1 and the one vector [1, 1] passed both as input and as output
    buffer, the call leaves [4, 4]: the first row turns the vector into
    [2, 2], and the second row is then scaled by the input 2 that the first
    row has left there.  The law asks for 1 + 1*1 + 1*1 = 3. *)
Lemma DenseLayer_Forward_aliased_buffers :
  (exists h',
     DenseLayer_Forward ones_layer (mkSlice 4 2 2) (mkSlice 4 2 2) ones_heap
     = Ok (mkSlice 4 2 2, h') /\
     read h' (mkSlice 4 2 2) = [fl 4; fl 4]) /\
  accumulate ones_heap ones_layer (mkSlice 4 2 2) 0 2
    (at_ ones_heap (mkSlice 4 2 2) 0) = fl 3 /\
  ~ DenseLayer_Forward_any_buffers.
Proof.
  split; [|split].
  - eexists. split; vm_compute; reflexivity.
  - vm_compute. reflexivity.
  - intros H.
    destruct (H ones_layer (mkSlice 4 2 2) (mkSlice 4 2 2) ones_heap
                2%nat 2%nat) as (h' & Hrun & Hval).
    + reflexivity.
    + repeat constructor.
    + reflexivity.
    + reflexivity.
    + specialize (Hval 0%nat ltac:(lia)).
      assert (E : match DenseLayer_Forward ones_layer (mkSlice 4 2 2)
                          (mkSlice 4 2 2) ones_heap with
                  | Ok (_, h0) => at_ h0 (mkSlice 4 2 2) 0
                  | Panicked _ => fl 0
                  end = fl 4) by (vm_compute; reflexivity).
      rewrite Hrun, Hval in E.
      replace (accumulate ones_heap ones_layer (mkSlice 4 2 2) 0 2
                 (at_ ones_heap (mkSlice 4 2 2) 0)) with (fl 3) in E
        by (vm_compute; reflexivity).
      vm_compute in E. discriminate E.
Qed.

Lemma DenseLayer_Forward_shape_check_witness :
  DenseLayer_Forward identity_layer (mkSlice 4 1 2) (mkSlice 6 2 2) identity_heap
  = Panicked (shape_mismatch_in 1) /\
  DenseLayer_Forward identity_layer (mkSlice 4 2 2) (mkSlice 6 3 3) identity_heap
  = Panicked (shape_mismatch_out 3).
Proof.
  split.
  - apply (DenseLayer_Forward_shape_check identity_layer (mkSlice 4 1 2)
             (mkSlice 6 2 2) identity_heap 2%nat 2%nat).
    + reflexivity.
    + repeat constructor.
    + simpl. lia.
  - apply (DenseLayer_Forward_shape_check identity_layer (mkSlice 4 2 2)
             (mkSlice 6 3 3) identity_heap 2%nat 2%nat).
    + reflexivity.
    + repeat constructor.
    + reflexivity.
    + simpl. lia.
Defined.

Lemma Model_AddLayer_appends_witness :
  (exists h', Model_AddLayer no_slack one_layer_model (Dense added_layer) Ident
                one_layer_heap = Ok (grown_model, h')) /\
  Model_Forward no_slack grown_model (mkSlice 5 2 2) (mkSlice 7 2 2) one_layer_heap
  = Panicked (shape_mismatch_in 2).
Proof.
  split.
  - eexists. vm_compute. reflexivity.
  - refine (proj2 (proj2 (Model_AddLayer_appends no_slack)
              one_layer_model grown_model identity_layer added_layer Ident
              one_layer_heap
              (match Model_AddLayer no_slack one_layer_model (Dense added_layer)
                       Ident one_layer_heap with
               | Ok (_, h') => h'
               | Panicked _ => one_layer_heap
               end)
              2%nat 2%nat 3%nat 1%nat _ _ _ _ _) _ _
              (mkSlice 5 2 2) (mkSlice 7 2 2) one_layer_heap _ _ _).
    + reflexivity.
    + reflexivity.
    + reflexivity.
    + lia.
    + vm_compute. reflexivity.
    + reflexivity.
    + repeat constructor.
    + reflexivity.
    + unfold Slice_wf. simpl. lia.
    + unfold Slice_wf. simpl. lia.
Defined.

(** C8, the two consequences refuted.  The one-element vector [0] becomes
    exactly [1], which is not below 1; the one-element vector [1000] becomes
    NaN, whose sum is no number at all. *)
Lemma Softmax_consequences_fail :
  ~ (exists math_Exp, Exp_contract math_Exp /\ Softmax_in_open_unit math_Exp) /\
  ~ (exists math_Exp, Exp_contract math_Exp /\ Softmax_sums_to_one math_Exp).
Proof.
  split.
  - intros (E & [H0 _] & Hspec).
    destruct (Softmax_replaces_elements E (mkSlice 0 1 1) (heap_of [fl 0]))
      as (h' & Hrun & Hval & _).
    specialize (Hspec (mkSlice 0 1 1) (heap_of [fl 0]) h'
                  ltac:(simpl; lia) eq_refl Hrun).
    specialize (Hval 0%nat ltac:(simpl; lia)).
    unfold read, addrs in Hspec. cbn [ptr len seq map forallb] in Hspec.
    unfold at_ in Hval. cbn [ptr Nat.add] in Hval. rewrite Hval in Hspec.
    unfold softmax_sum, read, addrs in Hspec.
    cbn [ptr len seq map fold_left] in Hspec.
    replace (load (heap_of [fl 0]) 0%nat) with (S754_zero false) in Hspec
      by (vm_compute; reflexivity).
    unfold exp in Hspec. cbn [float64_of_float32] in Hspec.
    rewrite H0 in Hspec. vm_compute in Hspec. discriminate Hspec.
  - intros (E & [_ H1000] & Hspec).
    destruct (Softmax_replaces_elements E (mkSlice 0 1 1) (heap_of [fl 1000]))
      as (h' & Hrun & Hval & _).
    specialize (Hspec (mkSlice 0 1 1) (heap_of [fl 1000]) h'
                  ltac:(simpl; lia) eq_refl Hrun).
    specialize (Hval 0%nat ltac:(simpl; lia)).
    destruct Hspec as (q & Hq & _).
    unfold read, addrs in Hq. cbn [ptr len seq map fold_left] in Hq.
    unfold at_ in Hval. cbn [ptr Nat.add] in Hval. rewrite Hval in Hq.
    unfold softmax_sum, read, addrs in Hq.
    cbn [ptr len seq map fold_left] in Hq.
    replace (load (heap_of [fl 1000]) 0%nat) with (fl 1000) in Hq
      by (vm_compute; reflexivity).
    unfold exp in Hq.
    replace (float64_of_float32 (fl 1000))
      with (binary_normalize F64.prec F64.emax 1000 0 false) in Hq
      by (vm_compute; reflexivity).
    rewrite H1000 in Hq. vm_compute in Hq. discriminate Hq.
Qed.

Lemma build_model_twice :
  exists h1 h2,
    build_model no_slack empty_heap = Ok (first_model, h1) /\
    build_model no_slack h1 = Ok (second_model, h2).
Proof.
  eexists _, _. split; vm_compute; reflexivity.
Qed.

Lemma Model_InitWeights_deterministic_witness :
  exists (r' : nat) (h1' h2' : Heap),
    Model_InitWeights nat counter_Float32 counter_NormFloat64
      first_model 0%nat empty_heap = Ok (r', h1') /\
    Model_InitWeights nat counter_Float32 counter_NormFloat64
      second_model 0%nat empty_heap = Ok (r', h2') /\
    Model_values h1' first_model = Model_values h2' second_model /\
    read h1' (Biases first_model) =
      map scaled_normal
        (fst (draw_n nat counter_NormFloat64 (len (Biases first_model)) 0%nat)) /\
    (map (load h1') (concat (map Layer_cells (Layers first_model))), r') =
      draws_fold nat (layer_weights nat counter_Float32)
        (map Layer_lens (Layers first_model))
        (snd (draw_n nat counter_NormFloat64 (len (Biases first_model)) 0%nat)) /\
    (Model_values h1' first_model, r') =
      InitWeights_spec nat counter_Float32 counter_NormFloat64
        (len (Biases first_model)) (map Layer_lens (Layers first_model)) 0%nat /\
    (forall a, ~ In a (Model_cells first_model) ->
               load h1' a = load empty_heap a).
Proof.
  apply (Model_InitWeights_deterministic nat counter_Float32 counter_NormFloat64
           first_model second_model 0%nat empty_heap empty_heap).
  - reflexivity.
  - apply (bool_decide_unpack _). vm_compute. reflexivity.
  - apply (bool_decide_unpack _). vm_compute. reflexivity.
Defined.

Lemma DenseLayer_InitWeights_within_xavier_witness :
  exists (r' : nat) (h' : Heap),
    DenseLayer_InitWeights nat counter_Float32
      [mkSlice 0 3 3; mkSlice 3 3 3] 0%nat empty_heap = Ok (r', h') /\
    (forall i j, (i < 2)%nat -> (j < 3)%nat ->
       within (Xavier_bound 2 3) (weight h' [mkSlice 0 3 3; mkSlice 3 3 3] i j)) /\
    (NoDup (Layer_cells (Dense [mkSlice 0 3 3; mkSlice 3 3 3])) ->
       r' = snd (draw_n nat counter_Float32 (2 * 3) 0%nat) /\
       forall i j, (i < 2)%nat -> (j < 3)%nat ->
         weight h' [mkSlice 0 3 3; mkSlice 3 3 3] i j =
         scaled_uniform (Xavier_bound 2 3)
           (nth_draw (fst (draw_n nat counter_Float32 (2 * 3) 0%nat))
                     (i * 3 + j))) /\
    (forall a, ~ In a (Layer_cells (Dense [mkSlice 0 3 3; mkSlice 3 3 3])) ->
               load h' a = load empty_heap a).
Proof.
  apply (DenseLayer_InitWeights_within_xavier nat counter_Float32
           [mkSlice 0 3 3; mkSlice 3 3 3] 0%nat empty_heap 2%nat 3%nat).
  - intros r0. unfold counter_Float32.
    destruct (Nat.even r0); vm_compute; repeat split.
  - reflexivity.
  - repeat constructor.
Defined.

Lemma Model_Forward_one_layer_witness :
  exists h',
    Model_Forward no_slack one_layer_model (mkSlice 5 2 2) (mkSlice 7 2 2)
      one_layer_heap = Ok (mkSlice 7 2 2, h') /\
    read h' (mkSlice 7 2 2) =
      Forward_spec one_layer_heap (Layers one_layer_model)
        (read one_layer_heap (Biases one_layer_model))
        (ActivFn one_layer_model) (read one_layer_heap (mkSlice 5 2 2)) /\
    (forall c, outside (mkSlice 7 2 2) c -> load h' c = load one_layer_heap c).
Proof.
  apply (Model_Forward_one_layer no_slack one_layer_model identity_layer Ident
           (mkSlice 5 2 2) (mkSlice 7 2 2) one_layer_heap 2%nat 2%nat).
  - reflexivity.
  - reflexivity.
  - simpl. lia.
  - reflexivity.
  - repeat constructor.
  - reflexivity.
  - reflexivity.
  - unfold separate. simpl. lia.
  - repeat constructor; unfold separate; simpl; lia.
  - unfold separate. simpl. lia.
  - intros j Hj. destruct j as [|[|j]]; [vm_compute; reflexivity ..|lia].
Defined.

Lemma Model_Forward_lengths_witness :
  exists (fanIn fanOut : nat),
    Model_Shape two_layer_model = Ok (fanIn, fanOut) /\
    len (mkSlice 4 1 1) = fanIn /\ len (mkSlice 4 1 1) = fanOut.
Proof.
  apply (Model_Forward_lengths no_slack two_layer_model
           (mkSlice 4 1 1) (mkSlice 5 1 1) (mkSlice 4 1 1) two_layer_heap
           (match Model_Forward no_slack two_layer_model (mkSlice 4 1 1)
                    (mkSlice 5 1 1) two_layer_heap with
            | Ok (_, h') => h'
            | Panicked _ => two_layer_heap
            end)).
  vm_compute. reflexivity.
Defined.

Lemma Model_Forward_total_witness :
  exists res h',
    Model_Forward no_slack two_layer_model (mkSlice 4 1 1) (mkSlice 5 1 1)
      two_layer_heap = Ok (res, h').
Proof.
  apply (Model_Forward_total no_slack two_layer_model (mkSlice 4 1 1)
           (mkSlice 5 1 1) two_layer_heap).
  - discriminate.
  - simpl. exists 1%nat. split; [reflexivity|]. split; [repeat constructor|].
    exists 1%nat. split; [reflexivity|]. split; [repeat constructor|exact I].
  - simpl. lia.
  - simpl. lia.
  - unfold Slice_wf. simpl. lia.
  - unfold Slice_wf. simpl. lia.
Defined.

Lemma Fixed8_Float32_increasing_witness :
  F32.ltb (Fixed8_Float32 (-3)) (Fixed8_Float32 5) = true.
Proof.
  apply Fixed8_Float32_increasing; unfold is_int8; lia.
Defined.
